(** * Spotify-lite backend: documents, serialization and route handlers

    A shallow embedding of [src/main.py]: Python values and dictionaries,
    the [ObjectId] token of the [bson] package, [serialize_doc], the
    document store behind the [db] handle, and the route handlers
    [seed], [list_tracks], [create_track], [create_playlist],
    [list_playlists] and [add_track_to_playlist]. *)

From Stdlib Require Import ZArith NArith Ascii String List.
From Stdlib.Strings Require Byte.
From stdpp Require Import base option list gmap strings pretty fin_maps.

Local Open Scope string_scope.
Local Open Scope list_scope.

(** ** Python and BSON values *)

(** A [bson.ObjectId] wraps the byte string [__id].  A generated
    identifier has twelve bytes; one built from a string has as many
    bytes as [bytes.fromhex] found in the 24 characters, which is fewer
    than twelve when the string holds whitespace. *)
Definition ObjectId := list Byte.byte.

(** The number of twelve-byte identifiers. *)
Definition oid_modulus : N := 2 ^ 96.

(** The values a stored document or a JSON body can hold.  Floats do not
    occur in the Track and Playlist schemas and are left out. *)
#[warnings="-register-all"]
Inductive value :=
| VNone
| VBool (b : bool)
| VInt (z : Z)
| VStr (s : string)
| VOid (o : ObjectId)
| VList (l : list value)
| VDict (d : list (string * value)).

(** A Python [dict] with string keys. *)
Abbreviation doc := (gmap string value).

(** Equality of identifiers is decided on the bytes' numbers, so that it
    evaluates. *)
Definition byte_eq_dec (a b : Byte.byte) : {a = b} + {a <> b}.
Proof.
  destruct (N.eq_dec (Byte.to_N a) (Byte.to_N b)) as [e|n].
  - left. apply (f_equal Byte.of_N) in e. rewrite !Byte.of_to_N in e.
    congruence.
  - right. congruence.
Defined.

Fixpoint bytes_eq_dec (a b : list Byte.byte) : {a = b} + {a <> b}.
Proof.
  destruct a as [|x a], b as [|y b]; try (right; discriminate).
  - left; reflexivity.
  - destruct (byte_eq_dec x y) as [e|n]; [|right; congruence].
    destruct (bytes_eq_dec a b) as [e'|n']; [left | right]; congruence.
Defined.

Definition value_eq_dec : forall a b : value, {a = b} + {a <> b}.
Proof.
  fix IH 1.
  intros a b; destruct a, b; try (right; discriminate).
  - left; reflexivity.
  - destruct (Bool.bool_dec b b0) as [->|]; [left; reflexivity | right; congruence].
  - destruct (Z.eq_dec z z0) as [->|]; [left; reflexivity | right; congruence].
  - destruct (string_dec s s0) as [->|]; [left; reflexivity | right; congruence].
  - destruct (bytes_eq_dec o o0) as [e|n]; [left | right]; congruence.
  - destruct (List.list_eq_dec IH l l0) as [->|]; [left; reflexivity | right; congruence].
  - assert (forall x y : string * value, {x = y} + {x <> y}) as Hp.
    { intros [k1 v1] [k2 v2].
      destruct (string_dec k1 k2) as [->|]; [| right; congruence].
      destruct (IH v1 v2) as [->|]; [left; reflexivity | right; congruence]. }
    destruct (List.list_eq_dec Hp d d0) as [->|]; [left; reflexivity | right; congruence].
Defined.

#[global] Instance value_eq_decision : EqDecision value := value_eq_dec.

(** Python truthiness, as used by [if not doc] and [if doc.get("_id")]. *)
Definition truthy (v : value) : bool :=
  match v with
  | VNone => false
  | VBool b => b
  | VInt z => negb (Z.eqb z 0)
  | VStr s => negb (String.eqb s EmptyString)
  | VOid _ => true
  | VList l => match l with [] => false | _ => true end
  | VDict d => match d with [] => false | _ => true end
  end.

(** [isinstance(v, ObjectId)] *)
Definition is_ObjectId (v : value) : bool :=
  match v with VOid _ => true | _ => false end.

(** *** Hexadecimal tokens *)

Definition hex_digit (n : N) : ascii :=
  match n with
  | 0 => "0" | 1 => "1" | 2 => "2" | 3 => "3" | 4 => "4" | 5 => "5"
  | 6 => "6" | 7 => "7" | 8 => "8" | 9 => "9" | 10 => "a" | 11 => "b"
  | 12 => "c" | 13 => "d" | 14 => "e" | _ => "f"
  end%N%char.

Definition hex_value (c : ascii) : option N :=
  let n := N_of_ascii c in
  if ((48 <=? n) && (n <=? 57))%N then Some (n - 48)%N
  else if ((97 <=? n) && (n <=? 102))%N then Some (n - 87)%N
  else if ((65 <=? n) && (n <=? 70))%N then Some (n - 55)%N
  else None.

(** ASCII lower-casing of one character ([str.lower] on hex text). *)
Definition ascii_lower (c : ascii) : ascii :=
  let n := N_of_ascii c in
  if ((65 <=? n) && (n <=? 90))%N then ascii_of_N (n + 32) else c.

(** [k] hexadecimal digits of [n], most significant first. *)
Fixpoint to_hex (k : nat) (n : N) : list ascii :=
  match k with
  | O => []
  | S k' => (to_hex k' (n / 16) ++ [hex_digit (n mod 16)])%list
  end.

(** ASCII whitespace (tab, line feed, vertical tab, form feed, carriage
    return, space), which [bytes.fromhex] skips between bytes. *)
Definition is_space (c : ascii) : bool :=
  let n := N_of_ascii c in
  (((9 <=? n) && (n <=? 13)) || (n =? 32))%N.

(** The byte with a given value below 256. *)
Definition byte_of_N (n : N) : Byte.byte :=
  match Byte.of_N n with
  | Some b => b
  | None => Byte.x00
  end.

(** [bytes.fromhex(s)]: whitespace is skipped where a byte may start;
    each byte is two hexadecimal digits next to each other; anything
    else raises [ValueError] ([None] here). *)
Fixpoint fromhex (cs : list ascii) : option (list Byte.byte) :=
  match cs with
  | [] => Some []
  | c :: cs' =>
      if is_space c then fromhex cs'
      else
        match hex_value c with
        | None => None
        | Some top =>
            match cs' with
            | [] => None
            | c2 :: cs'' =>
                match hex_value c2 with
                | None => None
                | Some bot =>
                    match fromhex cs'' with
                    | Some bs => Some (byte_of_N (top * 16 + bot) :: bs)
                    | None => None
                    end
                end
            end
        end
  end.

(** [binascii.hexlify(b)]: two lower-case hexadecimal digits per byte. *)
Definition hexlify (bs : list Byte.byte) : list ascii :=
  List.flat_map (fun b => to_hex 2 (Byte.to_N b)) bs.

(** [str(oid)]: the bytes of the identifier in hexadecimal, 24
    characters for a twelve-byte identifier. *)
Definition oid_str (o : ObjectId) : string :=
  string_of_list_ascii (hexlify o).

(** [ObjectId(s)] for a string [s]: the string must have 24 characters
    and [bytes.fromhex] must accept it; otherwise
    [bson.errors.InvalidId] is raised ([None] here). *)
Definition ObjectId_parse (s : string) : option ObjectId :=
  let cs := list_ascii_of_string s in
  if Nat.eqb (List.length cs) 24 then fromhex cs else None.

(** [k] bytes spelling [n] in big-endian order (the low [k] bytes of
    [n]). *)
Fixpoint bytes_be (k : nat) (n : N) : list Byte.byte :=
  match k with
  | O => []
  | S k' => (bytes_be k' (n / 256) ++ [byte_of_N (n mod 256)])%list
  end.

(** The twelve-byte identifier spelling a number, and the number a
    byte string spells. *)
Definition oid_of_N (n : N) : ObjectId := bytes_be 12 n.

Definition oid_to_N (o : ObjectId) : N :=
  foldl (fun acc b => (acc * 256 + Byte.to_N b)%N) 0%N o.

(** [ObjectId.is_valid(s)]: false on an empty string, otherwise whether
    the constructor accepts it. *)
Definition ObjectId_is_valid (s : string) : bool :=
  if String.eqb s EmptyString then false
  else match ObjectId_parse s with Some _ => true | None => false end.

(** *** [str] and [repr] *)

Definition backslash : ascii := ascii_of_N 92.
Definition squote : ascii := ascii_of_N 39.
Definition dquote : ascii := ascii_of_N 34.

Definition repr_char (q : ascii) (c : ascii) : string :=
  let n := N_of_ascii c in
  if Ascii.eqb c backslash then String backslash (String backslash EmptyString)
  else if Ascii.eqb c q then String backslash (String q EmptyString)
  else if (n =? 9)%N then String backslash "t"
  else if (n =? 10)%N then String backslash "n"
  else if (n =? 13)%N then String backslash "r"
  else if ((n <? 32) || (n =? 127))%N
       then String backslash (String "x"%char (string_of_list_ascii (to_hex 2 n)))
  else String c EmptyString.

Definition has_char (c : ascii) (s : string) : bool :=
  List.existsb (Ascii.eqb c) (list_ascii_of_string s).

(** [repr] of a string: single quotes unless the text holds a single
    quote and no double quote. *)
Definition repr_str (s : string) : string :=
  let q := if has_char squote s && negb (has_char dquote s)
           then dquote else squote in
  String q (String.append
              (String.concat EmptyString (map (repr_char q) (list_ascii_of_string s)))
              (String q EmptyString)).

(** [repr] of a value.  The text is Python's for every value whose
    strings hold ASCII characters only (see [repr_exact]); in a string
    with other characters, [repr] writes an escape for those Unicode
    does not count as printable, which are kept as they are here. *)
Fixpoint py_repr (v : value) : string :=
  match v with
  | VNone => "None"
  | VBool true => "True"
  | VBool false => "False"
  | VInt z => pretty z
  | VStr s => repr_str s
  | VOid o => ("ObjectId('" ++ oid_str o ++ "')")%string
  | VList l => ("[" ++ String.concat ", " (map py_repr l) ++ "]")%string
  | VDict d =>
      ("{" ++ String.concat ", "
                (map (fun kv => (repr_str (fst kv) ++ ": " ++ py_repr (snd kv))%string) d)
           ++ "}")%string
  end.

(** Python's [str]: the text itself for a string, the hexadecimal token
    for an [ObjectId], [repr] for the rest. *)
Definition py_str (v : value) : string :=
  match v with
  | VStr s => s
  | VOid o => oid_str o
  | _ => py_repr v
  end.

(** A text of ASCII characters only. *)
Definition ascii_text (s : string) : bool :=
  forallb (fun c => (N_of_ascii c <? 128)%N) (list_ascii_of_string s).

(** The values [py_repr] renders exactly as Python does: every string
    in them, at any depth, is ASCII text. *)
Fixpoint repr_exact (v : value) : bool :=
  match v with
  | VStr s => ascii_text s
  | VList l => forallb repr_exact l
  | VDict d => forallb (fun kv => ascii_text (fst kv) && repr_exact (snd kv)) d
  | _ => true
  end.

(** The values [py_str] renders exactly as Python does: any string, any
    identifier, and otherwise what [py_repr] renders exactly. *)
Definition str_exact (v : value) : bool :=
  match v with
  | VStr _ | VOid _ => true
  | _ => repr_exact v
  end.

(** ** Serialization ([serialize_doc], main.py lines 30-40) *)

(** One round of the loop [for k, v in list(doc.items())]: an
    [ObjectId]-typed value is replaced by its string. *)
Definition convert_item (acc : doc) (kv : string * value) : doc :=
  if is_ObjectId kv.2 then <[kv.1 := VStr (py_str kv.2)]> acc else acc.

(** The body of [serialize_doc] past the copy, on the copied dictionary. *)
Definition serialize_dict (d : doc) : doc :=
  let d1 :=
    match d !! "_id" with
    | Some v =>
        if truthy v then <["id" := VStr (py_str v)]> (delete "_id" d) else d
    | None => d
    end in
  foldl convert_item d1 (map_to_list d1).

(** [serialize_doc] on the value of its argument: [None] is Python's
    [None]; a falsy document (absent or empty) is returned as it is. *)
Definition serialize_doc (doc0 : option doc) : option doc :=
  match doc0 with
  | None => None
  | Some d => if decide (d = ∅) then Some d else Some (serialize_dict d)
  end.

(** ** A state-and-exception monad for the effectful code *)

Definition StateErr (S E A : Type) : Type := S -> (E + A) * S.

Definition ret {S E A} (x : A) : StateErr S E A := fun s => (inr x, s).

Definition bind {S E A B} (m : StateErr S E A) (f : A -> StateErr S E B)
  : StateErr S E B :=
  fun s =>
    match m s with
    | (inr x, s') => f x s'
    | (inl e, s') => (inl e, s')
    end.

Declare Scope prog_scope.
Delimit Scope prog_scope with prog.
Notation "x <- m ;; k" := (bind m (fun x => k))
  (at level 100, m at next level, right associativity) : prog_scope.
Notation "m ;;; k" := (bind m (fun _ => k))
  (at level 100, right associativity) : prog_scope.
Local Open Scope prog_scope.

Definition raise {S E A} (e : E) : StateErr S E A := fun s => (inl e, s).

Definition get_state {S E} : StateErr S E S := fun s => (inr s, s).

(** [try: body except Exception as e: handler(e)] *)
Definition try_except {S E A} (body : StateErr S E A)
    (handler : E -> StateErr S E A) : StateErr S E A :=
  fun s =>
    match body s with
    | (inr x, s') => (inr x, s')
    | (inl e, s') => handler e s'
    end.

(** [for x in l: body(x)] *)
Fixpoint for_each {S E A} (l : list A) (body : A -> StateErr S E unit)
  : StateErr S E unit :=
  match l with
  | [] => ret tt
  | x :: l' => body x ;;; for_each l' body
  end.

(** ** [serialize_doc] over a store of dictionary objects

    Python dictionaries are mutable objects reached through references.
    The store maps each reference to the dictionary's current content;
    every write names the reference it goes through. *)

Definition ref := positive.

Abbreviation heap := (gmap ref doc).

Inductive heap_error :=
| DanglingRef (r : ref)
| KeyError (k : string).

Abbreviation HeapM := (StateErr heap heap_error).

Definition h_read (r : ref) : HeapM doc :=
  fun h => match h !! r with
           | Some d => (inr d, h)
           | None => (inl (DanglingRef r), h)
           end.

(** [not doc] for a document reference or [None] *)
Definition h_falsy (r : option ref) : HeapM bool :=
  match r with
  | None => ret true
  | Some l => d <- h_read l ;; ret (bool_decide (d = ∅))
  end.

(** [{**doc}]: a new dictionary object with the same items *)
Definition h_copy (r : ref) : HeapM ref :=
  fun h =>
    match h !! r with
    | Some d => let r' := fresh (dom h) in (inr r', <[r' := d]> h)
    | None => (inl (DanglingRef r), h)
    end.

(** [doc.get(k)] *)
Definition h_get (r : ref) (k : string) : HeapM (option value) :=
  d <- h_read r ;; ret (d !! k).

(** [doc.pop(k)] *)
Definition h_pop (r : ref) (k : string) : HeapM value :=
  fun h =>
    match h !! r with
    | Some d =>
        match d !! k with
        | Some v => (inr v, <[r := delete k d]> h)
        | None => (inl (KeyError k), h)
        end
    | None => (inl (DanglingRef r), h)
    end.

(** [doc[k] = v] *)
Definition h_setitem (r : ref) (k : string) (v : value) : HeapM unit :=
  fun h =>
    match h !! r with
    | Some d => (inr tt, <[r := <[k := v]> d]> h)
    | None => (inl (DanglingRef r), h)
    end.

(** [list(doc.items())] *)
Definition h_items (r : ref) : HeapM (list (string * value)) :=
  d <- h_read r ;; ret (map_to_list d).

Definition truthy_opt (o : option value) : bool :=
  match o with Some v => truthy v | None => false end.

Definition serialize_doc_heap (doc0 : option ref) : HeapM (option ref) :=
  falsy <- h_falsy doc0 ;;
  match doc0 with
  | Some r0 =>
      if (falsy : bool) then ret doc0
      else
        r <- h_copy r0 ;;
        got <- h_get r "_id" ;;
        (if truthy_opt got
         then (v <- h_pop r "_id" ;; h_setitem r "id" (VStr (py_str v)))
         else ret tt) ;;;
        items <- h_items r ;;
        for_each items
          (fun kv => if is_ObjectId kv.2
                     then h_setitem r kv.1 (VStr (py_str kv.2))
                     else ret tt) ;;;
        ret (Some r)
  | None => ret doc0
  end.

(** The content a document reference denotes in a store. *)
Definition deref (h : heap) (r : option ref) : option doc :=
  match r with
  | None => None
  | Some l => h !! l
  end.

(** ** The document store behind the [db] handle *)

(** A database: its named collections, each a sequence of documents in
    storage order, and the counter the next generated identifier is
    taken from. *)
Record Database := {
  collections : gmap string (list doc);
  next_oid : N
}.

(** [db[name]]: a collection that was never written to is empty. *)
Definition collection (d : Database) (name : string) : list doc :=
  default [] (collections d !! name).

(** Calls made on the collections of the [db] handle, in the order they
    are made; a call that fails, in the driver or in the database, is
    in the trace too. *)
Inductive db_op :=
| OpCount (coll : string)
| OpInsert (coll : string)
| OpFindOne (coll : string)
| OpFind (coll : string)
| OpUpdate (coll : string).

(** The state a handler runs in: the module-level [db] handle ([None]
    when the connection was never configured) and the trace of database
    calls made so far. *)
Record World := {
  db : option Database;
  oplog : list db_op
}.

(** Exceptions; [DetailStr e] is the text [str(e)] of a caught
    exception. *)
Inductive exc :=
| HTTPException (status_code : Z) (detail : exc_detail)
| InvalidId (token : string)
| TypeError_NoneType
| DatabaseUnavailable
| DuplicateKeyError
| WriteError
| OverflowError
with exc_detail :=
| DetailText (s : string)
| DetailStr (e : exc).

Abbreviation Handler := (StateErr World exc).

Definition log_op (op : db_op) (w : World) : World :=
  {| db := db w; oplog := (oplog w ++ [op])%list |}.

Definition set_db (d : Database) (w : World) : World :=
  {| db := Some d; oplog := oplog w |}.

(** A query document matches a stored document when every field it
    names is stored with an equal value; [{}] matches everything. *)
Definition doc_matches (q d : doc) : bool :=
  bool_decide (map_Forall (fun k v => d !! k = Some v) q).

(** The documents of a collection a filter selects, in storage order. *)
Definition matching (q : doc) (l : list doc) : list doc :=
  filter (fun x => doc_matches q x = true) l.

(** [ObjectId(s)], raising [InvalidId] on a malformed token *)
Definition ObjectId_new {S} (s : string) : StateErr S exc ObjectId :=
  match ObjectId_parse s with
  | Some o => ret o
  | None => raise (InvalidId s)
  end.

(** [db[name].count_documents(q)] *)
Definition count_documents (name : string) (q : doc) : Handler Z :=
  fun w =>
    match db w with
    | None => (inl TypeError_NoneType, w)
    | Some d =>
        (inr (Z.of_nat (length (matching q (collection d name)))),
         log_op (OpCount name) w)
    end.

(** [db[name].find_one(q)]: the first matching document, or [None] *)
Definition find_one (name : string) (q : doc) : Handler (option doc) :=
  fun w =>
    match db w with
    | None => (inl TypeError_NoneType, w)
    | Some d =>
        (inr (head (matching q (collection d name))),
         log_op (OpFindOne name) w)
    end.

(** The identifier the database generates next. *)
Definition gen_oid (d : Database) : ObjectId :=
  oid_of_N (next_oid d).

(** The database after one more document is stored in a collection and
    one identifier is used up. *)
Definition store (name : string) (x : doc) (d : Database) : Database :=
  {| collections := <[name := (collection d name ++ [x])%list]> (collections d);
     next_oid := (next_oid d + 1)%N |}.

(** An integer BSON can hold: one that fits in eight bytes, signed. *)
Definition fits_int64 (z : Z) : bool :=
  ((- 2 ^ 63 <=? z) && (z <? 2 ^ 63))%Z.

(** A value the BSON encoder accepts: every integer in it, at any
    depth, fits in eight bytes. *)
Fixpoint bson_ok (v : value) : bool :=
  match v with
  | VInt z => fits_int64 z
  | VList l => forallb bson_ok l
  | VDict d => forallb (fun kv => bson_ok (snd kv)) d
  | _ => true
  end.

Definition doc_encodable (d : doc) : Prop :=
  map_Forall (fun _ v => bson_ok v = true) d.

(** [db[name].insert_one(data)] on an available database: a document
    without [_id] gets the next generated identifier; a document with
    an integer beyond eight bytes cannot be encoded ([OverflowError]);
    an [_id] already stored in the collection is refused. *)
Definition insert_one (name : string) (data : doc) (d : Database)
  : exc + (value * Database) :=
  let stored :=
    match data !! "_id" with
    | Some _ => data
    | None => <["_id" := VOid (gen_oid d)]> data
    end in
  let key := default VNone (stored !! "_id") in
  if negb (bool_decide (doc_encodable stored)) then inl OverflowError
  else if List.existsb (fun x => bool_decide (x !! "_id" = Some key))
            (collection d name)
  then inl DuplicateKeyError
  else inr (key, store name stored d).

(** The update [{"$addToSet": {field: v}}] on one document *)
Definition add_to_set (field : string) (v : value) (x : doc) : exc + doc :=
  match x !! field with
  | None => inr (<[field := VList [v]]> x)
  | Some (VList l) =>
      if bool_decide (v ∈ l) then inr x
      else inr (<[field := VList (l ++ [v])%list]> x)
  | Some _ => inl WriteError
  end.

(** Apply an update to the first document a predicate selects. *)
Fixpoint update_first (p : doc -> bool) (f : doc -> exc + doc)
    (l : list doc) : exc + list doc :=
  match l with
  | [] => inr []
  | x :: l' =>
      if p x then
        match f x with
        | inr x' => inr (x' :: l')
        | inl e => inl e
        end
      else
        match update_first p f l' with
        | inr l'' => inr (x :: l'')
        | inl e => inl e
        end
  end.

(** [db[name].update_one(q, {"$addToSet": {field: v}})] *)
Definition update_one_addToSet (name : string) (q : doc)
    (field : string) (v : value) : Handler unit :=
  fun w =>
    match db w with
    | None => (inl TypeError_NoneType, w)
    | Some d =>
        match update_first (doc_matches q) (add_to_set field v)
                (collection d name) with
        | inr l' =>
            (inr tt,
             log_op (OpUpdate name)
               (set_db {| collections :=
                            match collections d !! name with
                            | Some _ => <[name := l']> (collections d)
                            | None => collections d
                            end;
                          next_oid := next_oid d |} w))
        | inl e => (inl e, log_op (OpUpdate name) w)
        end
    end.

(** ** The document access layer *)

(** Modelled from the spec: [create_document] of the [database] module,
    which is not among the sources.  It inserts the record into the
    named collection and returns the newly assigned identifier as a
    string; it fails when the database handle is unavailable or the
    insert fails. *)
Definition create_document (name : string) (data : doc) : Handler string :=
  fun w =>
    match db w with
    | None => (inl DatabaseUnavailable, w)
    | Some d =>
        match insert_one name data d with
        | inr (key, d') => (inr (py_str key), log_op (OpInsert name) (set_db d' w))
        | inl e => (inl e, log_op (OpInsert name) w)
        end
    end.

(** Modelled from the spec: [get_documents] of the [database] module,
    which is not among the sources.  It returns up to [limit] matching
    records, the first ones in storage order, and an empty sequence when
    the collection is empty; it needs a live connection. *)
Definition get_documents (name : string) (q : doc) (limit : Z)
  : Handler (list doc) :=
  fun w =>
    match db w with
    | None => (inl DatabaseUnavailable, w)
    | Some d =>
        (inr (take (Z.to_nat limit) (matching q (collection d name))),
         log_op (OpFind name) w)
    end.

(** ** Schemas and request bodies *)

(** [schemas.Track]; [CreateTrack] of main.py has the same fields. *)
Record Track := {
  title : string;
  artist : string;
  album : option string;
  cover_url : option string;
  audio_url : string;
  duration_ms : option Z
}.

Abbreviation CreateTrack := Track.

Record CreatePlaylist := {
  name : string;
  description : option string;
  pl_cover_url : option string
}.

Record AddTrackPayload := { track_id : string }.

Definition opt_str (o : option string) : value :=
  match o with Some s => VStr s | None => VNone end.

Definition opt_int (o : option Z) : value :=
  match o with Some z => VInt z | None => VNone end.

(** [model_dump()] of a track: every field, [None] for an absent
    optional one. *)
Definition Track_model_dump (t : Track) : doc :=
  <["title" := VStr (title t)]>
  (<["artist" := VStr (artist t)]>
  (<["album" := opt_str (album t)]>
  (<["cover_url" := opt_str (cover_url t)]>
  (<["audio_url" := VStr (audio_url t)]>
  (<["duration_ms" := opt_int (duration_ms t)]> ∅))))).

Definition CreatePlaylist_model_dump (p : CreatePlaylist) : doc :=
  <["name" := VStr (name p)]>
  (<["description" := opt_str (description p)]>
  (<["cover_url" := opt_str (pl_cover_url p)]> ∅)).

(** ** Route handlers *)

Definition demo_track (t a al cover audio : string) (ms : Z) : doc :=
  <["title" := VStr t]>
  (<["artist" := VStr a]>
  (<["album" := VStr al]>
  (<["cover_url" := VStr cover]>
  (<["audio_url" := VStr audio]>
  (<["duration_ms" := VInt ms]> ∅))))).

Definition demo_tracks : list doc :=
  [ demo_track "Dreamscape" "Nocturne" "Midnight City"
      "https://images.unsplash.com/photo-1511379938547-c1f69419868d?w=800&q=80&auto=format&fit=crop"
      "https://cdn.pixabay.com/download/audio/2021/11/16/audio_7b2a3f9b9a.mp3?filename=lofi-study-112191.mp3"
      152000;
    demo_track "Sunset Drive" "Neon Waves" "Coastal Roads"
      "https://images.unsplash.com/photo-1511671782779-c97d3d27a1d4?w=800&q=80&auto=format&fit=crop"
      "https://cdn.pixabay.com/download/audio/2021/12/07/audio_7b5b2f6d8b.mp3?filename=vibes-122242.mp3"
      180000;
    demo_track "Crystal Air" "Aurora" "Skylight"
      "https://images.unsplash.com/photo-1515263487990-61b07816b324?w=800&q=80&auto=format&fit=crop"
      "https://cdn.pixabay.com/download/audio/2022/03/15/audio_7e0b7b5d03.mp3?filename=chill-ambient-10962.mp3"
      210000 ].

(** [POST /seed] (main.py lines 43-81) *)
Definition seed : Handler doc :=
  w <- get_state ;;
  match db w with
  | None => raise (HTTPException 500 (DetailText "Database not configured"))
  | Some _ =>
      count <- count_documents "track" ∅ ;;
      if (count >? 0)%Z then
        ret (<["status" := VStr "ok"]>
             (<["seeded" := VBool false]>
             (<["existing" := VInt count]> ∅)))
      else
        for_each demo_tracks
          (fun t => _id <- create_document "track" t ;; ret tt) ;;;
        ret (<["status" := VStr "ok"]>
             (<["seeded" := VBool true]>
             (<["count" := VInt (Z.of_nat (length demo_tracks))]> ∅)))
  end.

(** The default of the [limit] query parameter. *)
Definition default_limit : Z := 50.

(** [GET /tracks] (main.py lines 84-90); [limit] is [None] when the
    query parameter is omitted. *)
Definition list_tracks (limit : option Z) : Handler (list (option doc)) :=
  let limit := default default_limit limit in
  try_except
    (docs <- get_documents "track" ∅ limit ;;
     ret (map (fun d => serialize_doc (Some d)) docs))
    (fun e => raise (HTTPException 500 (DetailStr e))).

(** [POST /tracks] (main.py lines 100-108) *)
Definition create_track (payload : CreateTrack) : Handler (option doc) :=
  try_except
    (let track : Track := payload in
     _id <- create_document "track" (Track_model_dump track) ;;
     w <- get_state ;;
     match db w with
     | None => raise TypeError_NoneType
     | Some _ =>
         oid <- ObjectId_new _id ;;
         doc0 <- find_one "track" {["_id" := VOid oid]} ;;
         ret (serialize_doc doc0)
     end)
    (fun e => raise (HTTPException 400 (DetailStr e))).

(** [POST /playlists] (main.py lines 116-124) *)
Definition create_playlist (payload : CreatePlaylist) : Handler (option doc) :=
  try_except
    (let pl := <["tracks" := VList []]> (CreatePlaylist_model_dump payload) in
     _id <- create_document "playlist" pl ;;
     w <- get_state ;;
     match db w with
     | None => raise TypeError_NoneType
     | Some _ =>
         oid <- ObjectId_new _id ;;
         doc0 <- find_one "playlist" {["_id" := VOid oid]} ;;
         ret (serialize_doc doc0)
     end)
    (fun e => raise (HTTPException 400 (DetailStr e))).

(** [GET /playlists] (main.py lines 126-132) *)
Definition list_playlists (limit : option Z) : Handler (list (option doc)) :=
  let limit := default default_limit limit in
  try_except
    (docs <- get_documents "playlist" ∅ limit ;;
     ret (map (fun d => serialize_doc (Some d)) docs))
    (fun e => raise (HTTPException 500 (DetailStr e))).

(** [POST /playlists/{playlist_id}/tracks] (main.py lines 137-153) *)
Definition add_track_to_playlist (playlist_id : string)
    (payload : AddTrackPayload) : Handler (option doc) :=
  try_except
    (pid <- ObjectId_new playlist_id ;;
     tid0 <- (if ObjectId_is_valid (track_id payload)
              then (o <- ObjectId_new (track_id payload) ;; ret (Some o))
              else ret None) ;;
     tid <- match tid0 with
            | Some o => ret o
            | None =>
                try_except (ObjectId_new (track_id payload))
                  (fun _ => raise (HTTPException 400
                                     (DetailText "Invalid track id")))
            end ;;
     update_one_addToSet "playlist" {["_id" := VOid pid]}
       "tracks" (VStr (py_str (VOid tid))) ;;;
     doc0 <- find_one "playlist" {["_id" := VOid pid]} ;;
     ret (serialize_doc doc0))
    (fun e => raise (HTTPException 400 (DetailStr e))).

(** The HTTP status a handler run answers with: the status of a raised
    [HTTPException], 500 for any other uncaught exception, 200 for a
    returned body. *)
Definition status_of {A} (r : exc + A) : Z :=
  match r with
  | inr _ => 200
  | inl (HTTPException code _) => code
  | inl _ => 500
  end.

(** ** Derived notions used in the statements *)

(** What the conversion loop does to one value. *)
Definition convert_value (v : value) : value :=
  if is_ObjectId v then VStr (py_str v) else v.

(** The effect of the [_id] branch of [serialize_doc] on a dictionary. *)
Definition rename_id (d : doc) : doc :=
  match d !! "_id" with
  | Some v =>
      if truthy v then <["id" := VStr (py_str v)]> (delete "_id" d) else d
  | None => d
  end.

(** ASCII lower-casing of a string. *)
Definition lowercase (s : string) : string :=
  string_of_list_ascii (map ascii_lower (list_ascii_of_string s)).

(** A string without its ASCII whitespace. *)
Definition strip_spaces (s : string) : string :=
  string_of_list_ascii
    (filter (fun c => is_space c = false) (list_ascii_of_string s)).

(** No top-level value of the document is an [ObjectId]. *)
Definition no_ObjectId_values (d : doc) : Prop :=
  map_Forall (fun _ v => is_ObjectId v = false) d.

(** The filter [{"_id": oid}] of the lookups by identifier. *)
Definition by_id (o : ObjectId) : doc := {["_id" := VOid o]}.

(** The [tracks] field of the playlist stored under an identifier. *)
Definition playlist_tracks (d : Database) (p : ObjectId) : option value :=
  head (matching (by_id p) (collection d "playlist")) ≫= fun x => x !! "tracks".

(** The database with the playlist collection replaced, as
    [update_one] leaves it. *)
Definition with_playlists (d : Database) (l : list doc) : Database :=
  {| collections :=
       match collections d !! "playlist" with
       | Some _ => <["playlist" := l]> (collections d)
       | None => collections d
       end;
     next_oid := next_oid d |}.

(** The update the add-track route asks for, on the playlist
    collection of a database. *)
Definition playlist_update (d : Database) (p t : ObjectId) : exc + list doc :=
  update_first (doc_matches (by_id p))
    (add_to_set "tracks" (VStr (py_str (VOid t)))) (collection d "playlist").

(** The payloads BSON can encode: a duration, when given, fits in eight
    bytes. *)
Definition duration_fits (payload : CreateTrack) : Prop :=
  forall z, duration_ms payload = Some z -> fits_int64 z = true.

(** The stored document carries a generated identifier below [n]. *)
Definition id_below (n : N) (x : doc) : bool :=
  match x !! "_id" with
  | Some (VOid o) => Nat.eqb (length o) 12 && (oid_to_N o <? n)%N
  | _ => false
  end.

(** Databases as the routes build them: identifiers come from the
    counter, which has not run through the 96-bit range. *)
Definition db_wf (d : Database) : bool :=
  (next_oid d <? oid_modulus)%N &&
  forallb (fun kv => forallb (id_below (next_oid d)) kv.2)
          (map_to_list (collections d)).

(** No document of the list is selected by the predicate. *)
Definition matching_pred_none (p : doc -> bool) (l : list doc) : Prop :=
  forall x, x ∈ l -> p x = false.

(** Documents as stored by consecutive inserts that start at counter
    value [n]: each with its generated [_id]. *)
Definition with_ids (n : N) (l : list doc) : list doc :=
  imap (fun i t => <["_id" := VOid (oid_of_N (n + N.of_nat i))]> t) l.

(** The two bodies [POST /seed] answers with. *)
Definition seed_skipped (existing : Z) : doc :=
  <["status" := VStr "ok"]>
  (<["seeded" := VBool false]> (<["existing" := VInt existing]> ∅)).

Definition seed_done (count : Z) : doc :=
  <["status" := VStr "ok"]>
  (<["seeded" := VBool true]> (<["count" := VInt count]> ∅)).

(** A configured, empty database and the world around it. *)
Definition empty_db : Database := {| collections := ∅; next_oid := 0 |}.

Definition empty_world : World := {| db := Some empty_db; oplog := [] |}.

(** The world a handler run leaves behind. *)
Definition after {A} (h : Handler A) (w : World) : World := (h w).2.

(** The body a handler run answers with, or the exception it raises. *)
Definition answer {A} (h : Handler A) (w : World) : exc + A := (h w).1.

(** The body of a 200 answer. *)
Definition body_of {A} (r : exc + A) : option A :=
  match r with inr x => Some x | inl _ => None end.

(** The [id] field of a returned record. *)
Definition record_id (r : option doc) : option value :=
  r ≫= fun x => x !! "id".

(** ** The liveness and diagnostic routes *)

(** [GET /] (main.py lines 18-20) *)
Definition read_root : Handler doc :=
  ret {["message" := VStr "Spotify-lite API running"]}.

(** The [db] handle as the diagnostic route uses it: reading its [name]
    attribute gives a string, finds no such attribute ([inr None]) or
    raises ([inl] with the exception's text); [list_collection_names()]
    returns names or raises. *)
Record DbHandle := {
  name_attr : string + option string;
  list_collection_names : string + list string
}.

(** The diagnostic route builds its answer in the local dictionary
    [response]; exceptions are kept as their text [str(e)]. *)
Abbreviation Diag := (StateErr doc string).

(** [response[k] = v] *)
Definition set_field (k : string) (v : value) : Diag unit :=
  fun response => (inr tt, <[k := v]> response).

(** A call that returns or raises, lifted into the route. *)
Definition call {A} (r : string + A) : Diag A :=
  match r with
  | inr x => ret x
  | inl msg => raise msg
  end.

(** A text is kept as its UTF-8 bytes; a byte [10xxxxxx] continues the
    character begun before it. *)
Definition is_continuation (c : ascii) : bool :=
  let n := N_of_ascii c in ((128 <=? n) && (n <? 192))%N.

(** The first [n] characters of a text. *)
Fixpoint take_chars (n : nat) (cs : list ascii) : list ascii :=
  match cs with
  | [] => []
  | c :: cs' =>
      if is_continuation c then c :: take_chars n cs'
      else match n with
           | O => []
           | S n' => c :: take_chars n' cs'
           end
  end.

(** [s[:n]] *)
Definition str_prefix (n : nat) (s : string) : string :=
  string_of_list_ascii (take_chars n (list_ascii_of_string s)).

(** The truthiness of [os.getenv(k)]: set, and not to the empty
    string. *)
Definition env_set (getenv : string -> option string) (k : string) : bool :=
  match getenv k with
  | Some s => negb (String.eqb s EmptyString)
  | None => false
  end.

(** [GET /test] (main.py lines 156-185) *)
Definition test_database (handle : option DbHandle)
    (getenv : string -> option string) : Diag doc :=
  (fun _ => (inr tt,
     <["backend" := VStr "✅ Running"]>
     (<["database" := VStr "❌ Not Available"]>
     (<["database_url" := VNone]>
     (<["database_name" := VNone]>
     (<["connection_status" := VStr "Not Connected"]>
     (<["collections" := VList []]> ∅))))))) ;;;
  try_except
    (match handle with
     | Some h =>
         set_field "database" (VStr "✅ Available") ;;;
         set_field "database_url" (VStr "✅ Configured") ;;;
         attr <- call (name_attr h) ;;
         set_field "database_name"
           (VStr (match attr with
                  | Some n => n
                  | None => "✅ Connected"
                  end)) ;;;
         set_field "connection_status" (VStr "Connected") ;;;
         try_except
           (collections <- call (list_collection_names h) ;;
            set_field "collections" (VList (VStr <$> take 10 collections)) ;;;
            set_field "database" (VStr "✅ Connected & Working"))
           (fun e =>
              set_field "database"
                (VStr (String.append "⚠️  Connected but Error: " (str_prefix 50 e))))
     | None =>
         set_field "database" (VStr "⚠️  Available but not initialized")
     end)
    (fun e =>
       set_field "database" (VStr (String.append "❌ Error: " (str_prefix 50 e)))) ;;;
  set_field "database_url"
    (VStr (if env_set getenv "DATABASE_URL" then "✅ Set" else "❌ Not Set")) ;;;
  set_field "database_name"
    (VStr (if env_set getenv "DATABASE_NAME" then "✅ Set" else "❌ Not Set")) ;;;
  get_state.

(** The six keys of the diagnostic answer. *)
Definition diagnostic_keys : gset string :=
  {["backend"; "database"; "database_url"; "database_name";
    "connection_status"; "collections"]}.

(** ** Requests and what must hold across them *)

(** An identifier string in the form [str(ObjectId(...))] produces:
    24 lower-case hexadecimal characters. *)
Definition is_canonical (s : string) : bool :=
  match ObjectId_parse s with
  | Some o => String.eqb (oid_str o) s
  | None => false
  end.

(** A record as the list routes should hand it out: [_id] gone, [id] a
    canonical identifier string, no [ObjectId] left. *)
Definition listed_ok (r : option doc) : Prop :=
  exists x s, r = Some x /\ x !! "_id" = None /\
              x !! "id" = Some (VStr s) /\ is_canonical s = true /\
              no_ObjectId_values x.

(** The requests the data routes answer, one constructor per decorated
    handler of main.py. *)
Inductive request :=
| PostSeed
| GetTracks (limit : option Z)
| PostTracks (payload : CreateTrack)
| PostPlaylists (payload : CreatePlaylist)
| GetPlaylists (limit : option Z)
| PostPlaylistTracks (playlist_id : string) (payload : AddTrackPayload).

(** The world after a request has been answered. *)
Definition serve (r : request) (w : World) : World :=
  match r with
  | PostSeed => after seed w
  | GetTracks limit => after (list_tracks limit) w
  | PostTracks payload => after (create_track payload) w
  | PostPlaylists payload => after (create_playlist payload) w
  | GetPlaylists limit => after (list_playlists limit) w
  | PostPlaylistTracks playlist_id payload =>
      after (add_track_to_playlist playlist_id payload) w
  end.

(** Requests answered one after the other. *)
Definition serve_all (rs : list request) (w : World) : World :=
  foldl (fun w r => serve r w) w rs.

(** The [_id] column of a collection. *)
Definition ids_of (l : list doc) : list (option value) :=
  (fun x => x !! "_id") <$> l.

(** Nothing was deleted between two worlds: an unconfigured database
    stays unconfigured; a configured one keeps its track documents as a
    prefix of the track collection, and in every collection the
    documents stored before are still there, in place, under their
    identifiers. *)
Definition nothing_deleted (w w' : World) : Prop :=
  match db w with
  | None => db w' = None
  | Some d =>
      exists d', db w' = Some d' /\
        collection d "track" `prefix_of` collection d' "track" /\
        forall cname, ids_of (collection d cname) `prefix_of`
                      ids_of (collection d' cname)
  end.

(** A string [str] gives for an identifier the constructor can return:
    lower-case hexadecimal digits, two for each of at most twelve
    bytes. *)
Definition is_rendered (s : string) : bool :=
  match fromhex (list_ascii_of_string s) with
  | Some o => String.eqb (oid_str o) s && (length o <=? 12)%nat
  | None => false
  end.

(** Every stored playlist has, under [tracks], a sequence of rendered
    identifiers without repetition. *)
Definition tracks_ok (x : doc) : Prop :=
  exists l : list string,
    x !! "tracks" = Some (VList (VStr <$> l)) /\ NoDup l /\
    Forall (fun s => is_rendered s = true) l.

Definition playlists_ok (w : World) : Prop :=
  forall d, db w = Some d -> Forall tracks_ok (collection d "playlist").

(** Within each collection every document has an [_id] and no two
    documents share one. *)
Definition ids_unique (w : World) : Prop :=
  forall d cname, db w = Some d ->
    NoDup (ids_of (collection d cname)) /\
    Forall (fun x => is_Some (x !! "_id")) (collection d cname).

(** A handler relates every world it is run in to the world it leaves. *)
Definition related (R : World -> World -> Prop) {A} (h : Handler A) : Prop :=
  forall w, R w (h w).2.

(** What a relation between worlds must satisfy to follow every step a
    route can take: it is a preorder, it ignores the call trace, and it
    follows the three writes the routes perform (a track inserted, a
    new playlist inserted, a parsed track identifier added to a
    playlist). *)
Record route_relation (R : World -> World -> Prop) : Prop := {
  rr_refl : forall w, R w w;
  rr_trans : forall w1 w2 w3, R w1 w2 -> R w2 w3 -> R w1 w3;
  rr_log : forall op w, R w (log_op op w);
  rr_insert_track : forall w d data key d',
    db w = Some d -> data !! "_id" = None ->
    insert_one "track" data d = inr (key, d') -> R w (set_db d' w);
  rr_insert_playlist : forall w d pl key d',
    db w = Some d ->
    insert_one "playlist"
      (<["tracks" := VList []]> (CreatePlaylist_model_dump pl)) d = inr (key, d') ->
    R w (set_db d' w);
  rr_update : forall w d p t l',
    db w = Some d -> (length t <= 12)%nat ->
    playlist_update d p t = inr l' ->
    R w (set_db (with_playlists d l') w)
}.

(** * Properties *)

(** ** Hexadecimal tokens *)

Lemma length_to_hex k n : length (to_hex k n) = k.
Proof.
  revert n; induction k as [|k IH]; intros n; simpl; [done|].
  rewrite length_app, IH; simpl; lia.
Qed.

Lemma hex_value_digit n : (n < 16)%N -> hex_value (hex_digit n) = Some n.
Proof.
  intros Hn. rewrite <- (N2Nat.id n).
  assert (N.to_nat n < 16)%nat as Hm by lia.
  revert Hm. generalize (N.to_nat n) as m. intros m Hm.
  do 16 (destruct m as [|m]; [reflexivity|]). lia.
Qed.

Lemma hex_value_bound c d : hex_value c = Some d -> (d < 16)%N.
Proof.
  destruct c as [[] [] [] [] [] [] [] []]; vm_compute; intros H;
    first [discriminate H | (injection H as <-; reflexivity)].
Qed.

Lemma hex_digit_lower c d : hex_value c = Some d -> hex_digit d = ascii_lower c.
Proof.
  destruct c as [[] [] [] [] [] [] [] []]; vm_compute; intros H;
    first [discriminate H | (injection H as <-; reflexivity)].
Qed.

Lemma hex_value_not_space c d : hex_value c = Some d -> is_space c = false.
Proof.
  destruct c as [[] [] [] [] [] [] [] []]; vm_compute; intros H;
    first [discriminate H | reflexivity].
Qed.

Lemma byte_of_to_N b : byte_of_N (Byte.to_N b) = b.
Proof. unfold byte_of_N. by rewrite Byte.of_to_N. Qed.

Lemma byte_to_of_N n : (n < 256)%N -> Byte.to_N (byte_of_N n) = n.
Proof.
  intros Hn. unfold byte_of_N.
  destruct (Byte.of_N n) as [b|] eqn:Hb; [by apply Byte.to_of_N|].
  apply Byte.of_N_None_iff in Hb. lia.
Qed.

Lemma byte_to_N_lt b : (Byte.to_N b < 256)%N.
Proof. pose proof (Byte.to_N_bounded b). lia. Qed.

Lemma hexlify_cons b bs :
  hexlify (b :: bs) =
  hex_digit (Byte.to_N b / 16) :: hex_digit (Byte.to_N b mod 16) :: hexlify bs.
Proof.
  unfold hexlify. cbn [List.flat_map to_hex app].
  pose proof (byte_to_N_lt b) as Hb.
  rewrite (N.mod_small (Byte.to_N b / 16) 16); [done|].
  apply N.Div0.div_lt_upper_bound. lia.
Qed.

Lemma length_hexlify bs : length (hexlify bs) = (2 * length bs)%nat.
Proof.
  induction bs as [|b bs IH]; [done|]. rewrite hexlify_cons. cbn. lia.
Qed.

(** Reading back what [hexlify] wrote. *)
Lemma fromhex_hexlify bs : fromhex (hexlify bs) = Some bs.
Proof.
  induction bs as [|b bs IH]; [done|]. rewrite hexlify_cons.
  pose proof (byte_to_N_lt b) as Hb.
  assert (Byte.to_N b / 16 < 16)%N as Hhi
    by (apply N.Div0.div_lt_upper_bound; lia).
  assert (Byte.to_N b mod 16 < 16)%N as Hlo by (apply N.mod_lt; lia).
  cbn [fromhex].
  rewrite (hex_value_not_space _ _ (hex_value_digit _ Hhi)).
  rewrite (hex_value_digit _ Hhi), (hex_value_digit _ Hlo), IH.
  do 2 f_equal. rewrite <- (byte_of_to_N b) at 3. f_equal.
  rewrite (N.div_mod (Byte.to_N b) 16) at 3 by lia. lia.
Qed.

Lemma hexlify_inj a b : hexlify a = hexlify b -> a = b.
Proof.
  intros H. assert (Some a = Some b) as [= ->]; [|done].
  by rewrite <- !fromhex_hexlify, H.
Qed.

Lemma oid_str_inj a b : oid_str a = oid_str b -> a = b.
Proof.
  unfold oid_str. intros H. apply hexlify_inj.
  by rewrite <- (list_ascii_of_string_of_list_ascii (hexlify a)), H,
    list_ascii_of_string_of_list_ascii.
Qed.

Lemma ObjectId_parse_str o :
  length o = 12%nat -> ObjectId_parse (oid_str o) = Some o.
Proof.
  intros Hl. unfold ObjectId_parse, oid_str.
  rewrite list_ascii_of_string_of_list_ascii, length_hexlify, Hl.
  cbn [Nat.mul Nat.add Nat.eqb]. apply fromhex_hexlify.
Qed.

(** What [fromhex] read, written back: the text without its whitespace,
    in lower case; and no more bytes than pairs of characters. *)
Lemma hexlify_fromhex_step cs :
  (forall bs, fromhex cs = Some bs ->
     hexlify bs = map ascii_lower (filter (fun c => is_space c = false) cs) /\
     (2 * length bs <= length cs)%nat) /\
  (forall c bs, fromhex (c :: cs) = Some bs ->
     hexlify bs = map ascii_lower (filter (fun c => is_space c = false) (c :: cs)) /\
     (2 * length bs <= length (c :: cs))%nat).
Proof.
  induction cs as [|c2 cs [IH1 IH2]].
  - split.
    + intros bs [= <-]. split; [done | cbn; lia].
    + intros c bs. cbn [fromhex].
      destruct (is_space c) eqn:Hc.
      * intros [= <-]. rewrite filter_cons_False by (by rewrite Hc).
        split; [done | cbn; lia].
      * by destruct (hex_value c).
  - split; [exact (IH2 c2)|].
    intros c bs. cbn [fromhex].
    destruct (is_space c) eqn:Hc.
    + intros H. destruct (IH2 c2 bs H) as [Hh Hl].
      rewrite filter_cons_False by (by rewrite Hc).
      split; [done | cbn in *; lia].
    + destruct (hex_value c) as [top|] eqn:Htop; [|done].
      destruct (hex_value c2) as [bot|] eqn:Hbot; [|done].
      destruct (fromhex cs) as [bs'|] eqn:Hrest; [|done].
      intros [= <-]. destruct (IH1 bs' eq_refl) as [Hh Hl].
      pose proof (hex_value_bound _ _ Htop) as Ht.
      pose proof (hex_value_bound _ _ Hbot) as Hb.
      rewrite filter_cons_True by done.
      rewrite filter_cons_True by apply (hex_value_not_space _ _ Hbot).
      split; [|cbn in *; lia].
      rewrite hexlify_cons, byte_to_of_N by lia. cbn [map].
      replace ((top * 16 + bot) / 16)%N with top
        by (apply (N.div_unique _ 16 top bot); lia).
      replace ((top * 16 + bot) mod 16)%N with bot
        by (apply (N.mod_unique _ 16 top bot); lia).
      by rewrite (hex_digit_lower _ _ Htop), (hex_digit_lower _ _ Hbot), Hh.
Qed.

Lemma hexlify_fromhex cs bs :
  fromhex cs = Some bs ->
  hexlify bs = map ascii_lower (filter (fun c => is_space c = false) cs).
Proof. intros H. by apply (proj1 (hexlify_fromhex_step cs)). Qed.

Lemma length_fromhex cs bs :
  fromhex cs = Some bs -> (2 * length bs <= length cs)%nat.
Proof. intros H. by apply (proj1 (hexlify_fromhex_step cs)). Qed.

(** The string of a parsed identifier is the token without its
    whitespace, in lower case. *)
Lemma oid_str_parse s o :
  ObjectId_parse s = Some o -> oid_str o = lowercase (strip_spaces s).
Proof.
  unfold ObjectId_parse, oid_str, lowercase, strip_spaces.
  destruct (Nat.eqb (length (list_ascii_of_string s)) 24); [|done].
  intros H. rewrite list_ascii_of_string_of_list_ascii. f_equal.
  by apply hexlify_fromhex.
Qed.

Lemma strip_spaces_none s :
  forallb (fun c => negb (is_space c)) (list_ascii_of_string s) = true ->
  strip_spaces s = s.
Proof.
  unfold strip_spaces. intros H.
  rewrite <- (string_of_list_ascii_of_string s) at 2. f_equal.
  induction (list_ascii_of_string s) as [|c cs IH]; [done|].
  cbn in H. apply andb_true_iff in H as [Hc Hcs].
  rewrite filter_cons_True by (by destruct (is_space c)). by rewrite IH.
Qed.

Lemma ObjectId_parse_length s o :
  ObjectId_parse s = Some o -> (length o <= 12)%nat.
Proof.
  unfold ObjectId_parse.
  destruct (Nat.eqb_spec (length (list_ascii_of_string s)) 24) as [Hl|]; [|done].
  intros H%length_fromhex. lia.
Qed.

(** Twelve-byte identifiers and the numbers they spell. *)
Lemma length_bytes_be k n : length (bytes_be k n) = k.
Proof.
  revert n; induction k as [|k IH]; intros n; cbn; [done|].
  rewrite length_app, IH. cbn. lia.
Qed.

Lemma oid_to_N_bytes_be k n :
  oid_to_N (bytes_be k n) = (n mod 256 ^ N.of_nat k)%N.
Proof.
  unfold oid_to_N. revert n; induction k as [|k IH]; intros n.
  - cbn. by rewrite N.mod_1_r.
  - cbn [bytes_be]. rewrite foldl_snoc, IH.
    rewrite byte_to_of_N by (apply N.mod_lt; lia).
    rewrite Nat2N.inj_succ, N.pow_succ_r', N.Div0.mod_mul_r. lia.
Qed.

Lemma length_oid_of_N n : length (oid_of_N n) = 12%nat.
Proof. apply length_bytes_be. Qed.

Lemma oid_to_of_N n : oid_to_N (oid_of_N n) = (n mod oid_modulus)%N.
Proof. unfold oid_of_N. by rewrite oid_to_N_bytes_be. Qed.

Lemma oid_of_N_inj a b :
  (a < oid_modulus)%N -> (b < oid_modulus)%N -> oid_of_N a = oid_of_N b -> a = b.
Proof.
  intros Ha Hb H. apply (f_equal oid_to_N) in H.
  by rewrite !oid_to_of_N, !N.mod_small in H.
Qed.

Lemma ObjectId_parse_generated n :
  ObjectId_parse (oid_str (oid_of_N n)) = Some (oid_of_N n).
Proof. apply ObjectId_parse_str, length_oid_of_N. Qed.

Lemma ObjectId_is_valid_parse s o :
  ObjectId_parse s = Some o -> ObjectId_is_valid s = true.
Proof.
  unfold ObjectId_is_valid. intros H. rewrite H.
  destruct (String.eqb_spec s EmptyString) as [->|]; [discriminate H | done].
Qed.

Lemma ObjectId_is_valid_None s :
  ObjectId_parse s = None -> ObjectId_is_valid s = false.
Proof. unfold ObjectId_is_valid. intros ->. by destruct (String.eqb _ _). Qed.

(** ** Serialization *)

Lemma convert_value_idemp v : convert_value (convert_value v) = convert_value v.
Proof. by destruct v. Qed.

Lemma truthy_convert_value v : truthy v = false -> convert_value v = v.
Proof. by destruct v. Qed.

(** The conversion loop, round by round, against the items it was
    started from. *)
Lemma foldl_convert_item_lookup (l : list (string * value)) (acc : doc) k :
  NoDup l.*1 ->
  foldl convert_item acc l !! k =
  match (list_to_map l : doc) !! k with
  | Some v => if is_ObjectId v then Some (VStr (py_str v)) else acc !! k
  | None => acc !! k
  end.
Proof.
  revert acc; induction l as [|[k0 v0] l IH]; intros acc Hnd.
  - cbn. by rewrite lookup_empty.
  - apply NoDup_cons in Hnd as [Hk0 Hnd]. cbn [foldl list_to_map foldr].
    rewrite (IH _ Hnd). unfold convert_item at 1 2; cbn [fst snd].
    destruct (decide (k = k0)) as [->|Hne].
    + rewrite lookup_insert_eq.
      rewrite (not_elem_of_list_to_map_1 _ _ Hk0).
      destruct (is_ObjectId v0); [by rewrite lookup_insert_eq | done].
    + rewrite lookup_insert_ne by done.
      destruct (is_ObjectId v0); [by rewrite lookup_insert_ne | done].
Qed.

Lemma convert_loop_fmap (d : doc) :
  foldl convert_item d (map_to_list d) = convert_value <$> d.
Proof.
  apply map_eq; intros k.
  rewrite foldl_convert_item_lookup by apply NoDup_fst_map_to_list.
  rewrite list_to_map_to_list, lookup_fmap.
  unfold convert_value. destruct (d !! k) as [v|]; [|done].
  cbn. by destruct (is_ObjectId v).
Qed.

Lemma serialize_dict_fmap d : serialize_dict d = convert_value <$> rename_id d.
Proof. unfold serialize_dict. fold (rename_id d). apply convert_loop_fmap. Qed.

Lemma rename_id_nonempty d : d <> ∅ -> rename_id d <> ∅.
Proof.
  unfold rename_id. intros Hd.
  destruct (d !! "_id") as [v|]; [|done].
  destruct (truthy v); [|done]. apply insert_non_empty.
Qed.

Lemma serialize_dict_nonempty d : d <> ∅ -> serialize_dict d <> ∅.
Proof.
  intros Hd. rewrite serialize_dict_fmap. intros H.
  apply fmap_empty_inv in H. by apply (rename_id_nonempty d).
Qed.

(** After one pass there is no truthy [_id] left to rename. *)
Lemma rename_id_serialize_dict d :
  rename_id (serialize_dict d) = serialize_dict d.
Proof.
  rewrite serialize_dict_fmap. unfold rename_id at 1.
  rewrite lookup_fmap.
  destruct (rename_id d !! "_id") as [v|] eqn:Hv; [|done]. cbn.
  destruct (truthy (convert_value v)) eqn:Ht; [|done].
  exfalso. unfold rename_id in Hv.
  destruct (d !! "_id") as [v0|] eqn:Hv0; [|congruence].
  destruct (truthy v0) eqn:Ht0.
  - rewrite lookup_insert_ne, lookup_delete_eq in Hv by done. done.
  - assert (v = v0) as -> by congruence.
    rewrite truthy_convert_value in Ht by done. congruence.
Qed.

Lemma serialize_dict_idemp d :
  serialize_dict (serialize_dict d) = serialize_dict d.
Proof.
  rewrite (serialize_dict_fmap (serialize_dict d)), rename_id_serialize_dict.
  rewrite serialize_dict_fmap, <- map_fmap_compose.
  apply map_fmap_ext; intros k v _. apply convert_value_idemp.
Qed.

Lemma serialize_dict_id d :
  d !! "_id" = None -> no_ObjectId_values d -> serialize_dict d = d.
Proof.
  intros Hid Hno. rewrite serialize_dict_fmap. unfold rename_id. rewrite Hid.
  apply map_eq; intros k. rewrite lookup_fmap.
  destruct (d !! k) as [v|] eqn:Hk; [|done]. cbn.
  unfold convert_value. by rewrite (Hno k v Hk).
Qed.

(** C3: serialization is idempotent: for every document, and for the
    absent document [None], serializing the result of a serialization
    gives that result again. *)
Theorem serialize_doc_idempotent (doc0 : option doc) :
  serialize_doc (serialize_doc doc0) = serialize_doc doc0.
Proof.
  destruct doc0 as [d|]; [|reflexivity]. cbn.
  destruct (decide (d = ∅)) as [->|Hd].
  - cbn. by rewrite decide_True.
  - cbn. rewrite decide_False by by apply serialize_dict_nonempty.
    by rewrite serialize_dict_idemp.
Qed.

(** C4, as the code has it: the absent document is returned as it is,
    and a document with no [_id] field and no [ObjectId]-typed value is
    returned with unchanged content. *)
Theorem serialize_doc_unchanged (d : doc) :
  d !! "_id" = None -> no_ObjectId_values d ->
  serialize_doc None = None /\ serialize_doc (Some d) = Some d.
Proof.
  intros Hid Hno. split; [reflexivity|]. cbn.
  destruct (decide (d = ∅)); [done|]. by rewrite serialize_dict_id.
Qed.

Lemma serialize_doc_unchanged_witness :
  serialize_doc None = None /\
  serialize_doc (Some (<["title" := VStr "X"]> (<["id" := VStr "000000000000000000000001"]> ∅)))
  = Some (<["title" := VStr "X"]> (<["id" := VStr "000000000000000000000001"]> ∅)).
Proof.
  apply serialize_doc_unchanged.
  - vm_compute. reflexivity.
  - apply (bool_decide_unpack _). vm_compute. exact I.
Defined.

(** C4, as stated, fails: a document without [_id] that holds an
    [ObjectId] under another key comes back with that value turned into
    a string. *)
Lemma serialize_doc_no_id_changed :
  let d : doc := {["owner" := VOid (oid_of_N 1)]} in
  d !! "_id" = None /\ serialize_doc (Some d) <> Some d /\
  serialize_doc (Some d) = Some {["owner" := VStr "000000000000000000000001"]}.
Proof.
  cbn zeta. split; [by vm_compute|]. split.
  - intros H. assert (Hl : (serialize_doc (Some ({["owner" := VOid (oid_of_N 1)]} : doc)) ≫= (.!! "owner")) = Some (VOid (oid_of_N 1))).
    { rewrite H. by vm_compute. }
    vm_compute in Hl. discriminate Hl.
  - vm_compute. reflexivity.
Qed.

(** ** Serialization leaves its argument alone *)

Lemma for_each_convert_heap (r : ref) items (h : heap) (cur : doc) :
  h !! r = Some cur ->
  for_each items
    (fun kv => if is_ObjectId kv.2
               then h_setitem r kv.1 (VStr (py_str kv.2))
               else ret tt) h
  = (inr tt, <[r := foldl convert_item cur items]> h).
Proof.
  revert h cur; induction items as [|[k v] items IH]; intros h cur Hr.
  - cbn. by rewrite insert_id.
  - cbn [for_each foldl]. unfold bind, convert_item at 2. cbn [fst snd].
    destruct (is_ObjectId v).
    + unfold h_setitem. rewrite Hr.
      rewrite (IH _ (<[k := VStr (py_str v)]> cur)) by apply lookup_insert_eq.
      by rewrite insert_insert_eq.
    + unfold ret. by apply IH.
Qed.

(** What a run of [serialize_doc] on a live reference does to the
    store: nothing for an empty dictionary, otherwise one new object
    holding the serialized content. *)
Lemma serialize_doc_heap_run (h : heap) (r0 : ref) (d : doc) :
  h !! r0 = Some d ->
  serialize_doc_heap (Some r0) h =
  if decide (d = ∅) then (inr (Some r0), h)
  else (inr (Some (fresh (dom h))), <[fresh (dom h) := serialize_dict d]> h).
Proof.
  intros Hr0. unfold serialize_doc_heap, bind at 1.
  unfold h_falsy, bind at 1, h_read. rewrite Hr0. unfold ret at 1.
  destruct (decide (d = ∅)) as [Hd|Hd].
  { by rewrite bool_decide_eq_true_2. }
  rewrite bool_decide_eq_false_2 by done.
  set (r := fresh (dom h)).
  assert (h !! r = None) as Hfresh.
  { apply not_elem_of_dom. apply is_fresh. }
  unfold bind at 1, h_copy. rewrite Hr0. fold r.
  unfold bind at 1, h_get, bind at 1, h_read. rewrite lookup_insert_eq.
  unfold ret at 1.
  assert (forall h1 : heap, h1 !! r = Some (rename_id d) ->
            (items <- h_items r ;;
             for_each items
               (fun kv => if is_ObjectId kv.2
                          then h_setitem r kv.1 (VStr (py_str kv.2))
                          else ret tt) ;;;
             ret (Some r)) h1 = (inr (Some r), <[r := serialize_dict d]> h1)) as Hloop.
  { intros h1 Hh1. unfold bind at 1, h_items, bind at 1, h_read.
    rewrite Hh1. unfold ret at 1. unfold bind at 1.
    rewrite (for_each_convert_heap r _ h1 (rename_id d) Hh1).
    unfold ret. by rewrite convert_loop_fmap, serialize_dict_fmap. }
  unfold bind at 1.
  destruct (d !! "_id") as [v|] eqn:Hid; cbn [truthy_opt].
  - destruct (truthy v) eqn:Hv.
    + unfold bind at 1, h_pop. rewrite lookup_insert_eq, Hid.
      unfold h_setitem. rewrite lookup_insert_eq.
      rewrite !insert_insert_eq.
      rewrite Hloop; [by rewrite insert_insert_eq|].
      rewrite lookup_insert_eq. unfold rename_id. by rewrite Hid, Hv.
    + unfold ret at 1. rewrite Hloop; [by rewrite insert_insert_eq|].
      rewrite lookup_insert_eq. unfold rename_id. by rewrite Hid, Hv.
  - unfold ret at 1. rewrite Hloop; [by rewrite insert_insert_eq|].
    rewrite lookup_insert_eq. unfold rename_id. by rewrite Hid.
Qed.

(** C9: serialization never mutates its input.  Run on any store and on
    [None] or a live dictionary reference, [serialize_doc] returns
    without raising, every object of the store (the input dictionary
    among them) keeps its content, and the returned reference denotes
    the serialized content. *)
Theorem serialize_doc_no_mutation (h : heap) (doc0 : option ref) :
  (forall r, doc0 = Some r -> is_Some (h !! r)) ->
  exists res h',
    serialize_doc_heap doc0 h = (inr res, h') /\
    h ⊆ h' /\
    deref h' doc0 = deref h doc0 /\
    deref h' res = serialize_doc (deref h doc0).
Proof.
  intros Hlive. destruct doc0 as [r0|].
  - destruct (Hlive r0 eq_refl) as [d Hd].
    rewrite (serialize_doc_heap_run h r0 d Hd). cbn [deref serialize_doc].
    rewrite Hd. cbn [serialize_doc].
    destruct (decide (d = ∅)) as [He|He].
    + exists (Some r0), h. by rewrite Hd.
    + assert (h !! fresh (dom h) = None) as Hfresh.
      { apply not_elem_of_dom. apply is_fresh. }
      eexists _, _. split; [reflexivity|]. split; [by apply insert_subseteq|].
      split.
      * cbn. rewrite lookup_insert_ne; [done|]. congruence.
      * cbn. by rewrite lookup_insert_eq.
  - exists None, h. done.
Qed.

Lemma serialize_doc_no_mutation_witness :
  let h : heap := {[ 1%positive := {["_id" := VOid (oid_of_N 7); "owner" := VOid (oid_of_N 9)]} ]} in
  exists res h',
    serialize_doc_heap (Some 1%positive) h = (inr res, h') /\
    h ⊆ h' /\
    deref h' (Some 1%positive) = deref h (Some 1%positive) /\
    deref h' res = serialize_doc (deref h (Some 1%positive)).
Proof.
  cbn zeta. apply serialize_doc_no_mutation.
  intros r [= <-]. vm_compute. eauto.
Defined.

(** ** Queries *)

Lemma doc_matches_empty x : doc_matches ∅ x = true.
Proof. unfold doc_matches. apply bool_decide_eq_true_2, map_Forall_empty. Qed.

Lemma doc_matches_by_id o x :
  doc_matches (by_id o) x = true <-> x !! "_id" = Some (VOid o).
Proof.
  unfold doc_matches, by_id. rewrite bool_decide_eq_true.
  by rewrite map_Forall_singleton.
Qed.

Lemma matching_empty l : matching ∅ l = l.
Proof.
  unfold matching. induction l as [|x l IH]; [done|].
  rewrite filter_cons_True by apply doc_matches_empty. by rewrite IH.
Qed.

Lemma matching_by_id_none o l :
  (forall x, x ∈ l -> x !! "_id" <> Some (VOid o)) -> matching (by_id o) l = [].
Proof.
  unfold matching. induction l as [|x l IH]; intros H; [done|].
  rewrite filter_cons_False.
  - apply IH. intros y Hy. apply H. by right.
  - rewrite doc_matches_by_id. apply H. by left.
Qed.

Lemma with_playlists_same d : with_playlists d (collection d "playlist") = d.
Proof.
  destruct d as [cs n]. unfold with_playlists, collection. cbn.
  f_equal. destruct (cs !! "playlist") as [l|] eqn:Hl; [|done].
  cbn. by apply insert_id.
Qed.

Lemma collection_with_playlists d l :
  (collections d !! "playlist" = None -> l = []) ->
  collection (with_playlists d l) "playlist" = l.
Proof.
  unfold collection, with_playlists. cbn. intros H.
  destruct (collections d !! "playlist") as [l0|] eqn:Hl.
  - by rewrite lookup_insert_eq.
  - rewrite Hl. cbn. by rewrite H.
Qed.

Lemma with_playlists_twice d l l' :
  with_playlists (with_playlists d l) l' = with_playlists d l'.
Proof.
  unfold with_playlists. cbn. f_equal.
  destruct (collections d !! "playlist") as [l0|] eqn:Hl.
  - rewrite lookup_insert_eq. by rewrite insert_insert_eq.
  - by rewrite Hl.
Qed.

(** ** C8: listing *)

Lemma get_documents_run w d name limit :
  db w = Some d ->
  get_documents name ∅ limit w =
  (inr (take (Z.to_nat limit) (collection d name)), log_op (OpFind name) w).
Proof. intros Hdb. unfold get_documents. by rewrite Hdb, matching_empty. Qed.

Lemma list_tracks_run w d limit :
  db w = Some d ->
  list_tracks limit w =
  (inr (map (fun x => serialize_doc (Some x))
          (take (Z.to_nat (default 50%Z limit)) (collection d "track"))),
   log_op (OpFind "track") w).
Proof.
  intros Hdb. unfold list_tracks, try_except, bind.
  by rewrite (get_documents_run w d _ _ Hdb).
Qed.

Lemma list_playlists_run w d limit :
  db w = Some d ->
  list_playlists limit w =
  (inr (map (fun x => serialize_doc (Some x))
          (take (Z.to_nat (default 50%Z limit)) (collection d "playlist"))),
   log_op (OpFind "playlist") w).
Proof.
  intros Hdb. unfold list_playlists, try_except, bind.
  by rewrite (get_documents_run w d _ _ Hdb).
Qed.

(** C8: with a configured database, [GET /tracks] and [GET /playlists]
    answer with the serialized first [limit] records of the collection:
    never more than [limit] of them, 50 being the limit when the
    parameter is omitted, and the empty sequence (not an error) when the
    collection is empty. *)
Theorem list_routes_limit (w : World) (d : Database) (limit : option Z) :
  db w = Some d ->
  let n := default 50%Z limit in
  exists ts ps,
    answer (list_tracks limit) w = inr ts /\
    answer (list_playlists limit) w = inr ps /\
    ts = map (fun x => serialize_doc (Some x))
             (take (Z.to_nat n) (collection d "track")) /\
    ps = map (fun x => serialize_doc (Some x))
             (take (Z.to_nat n) (collection d "playlist")) /\
    (length ts <= Z.to_nat n)%nat /\ (length ps <= Z.to_nat n)%nat /\
    ((0 <= n)%Z -> (Z.of_nat (length ts) <= n)%Z /\ (Z.of_nat (length ps) <= n)%Z) /\
    (limit = None -> (length ts <= 50)%nat /\ (length ps <= 50)%nat) /\
    (collection d "track" = [] -> ts = []) /\
    (collection d "playlist" = [] -> ps = []).
Proof.
  intros Hdb n.
  exists (map (fun x => serialize_doc (Some x))
            (take (Z.to_nat n) (collection d "track"))),
         (map (fun x => serialize_doc (Some x))
            (take (Z.to_nat n) (collection d "playlist"))).
  unfold answer.
  rewrite (list_tracks_run w d limit Hdb), (list_playlists_run w d limit Hdb).
  fold n.
  assert (limit = None -> n = 50%Z) as Hdef by (by intros ->).
  clearbody n. rewrite !length_map, !length_take.
  split; [done|]. split; [done|]. split; [done|]. split; [done|].
  split; [lia|]. split; [lia|]. split; [lia|].
  split; [intros Hnone; rewrite (Hdef Hnone); lia|].
  split; intros ->; by rewrite take_nil.
Qed.

Lemma list_routes_limit_witness :
  exists ts ps,
    answer (list_tracks None) (after seed empty_world) = inr ts /\
    answer (list_playlists (Some 2%Z)) (after seed empty_world) = inr ps /\
    length ts = 3%nat /\ ps = [].
Proof.
  destruct (list_routes_limit (after seed empty_world)
              (default empty_db (db (after seed empty_world))) None)
    as (ts & _ & Hts & _ & Hts' & _).
  { vm_compute. reflexivity. }
  destruct (list_routes_limit (after seed empty_world)
              (default empty_db (db (after seed empty_world))) (Some 2%Z))
    as (_ & ps & _ & Hps & _ & _ & _ & _ & _ & _ & _ & Hempty).
  { vm_compute. reflexivity. }
  exists ts, ps. split; [exact Hts|]. split; [exact Hps|].
  split; [rewrite Hts'; vm_compute; reflexivity | apply Hempty; vm_compute; reflexivity].
Defined.

(** ** The add-track route *)

Section UpdateFirst.
Variable p : doc -> bool.
Variable f : doc -> exc + doc.

Lemma update_first_no_match l :
  matching_pred_none p l -> update_first p f l = inr l.
Proof.
  unfold matching_pred_none.
  induction l as [|x l IH]; intros H; [done|]. cbn.
  rewrite (H x) by by left.
  rewrite IH; [done|]. intros y Hy. apply H. by right.
Qed.

Lemma update_first_fails l e :
  update_first p f l = inl e ->
  exists x, head (filter (fun x => p x = true) l) = Some x /\ f x = inl e.
Proof.
  induction l as [|x l IH]; cbn [update_first]; [done|].
  destruct (p x) eqn:Hp.
  - rewrite filter_cons_True by done. cbn [head].
    destruct (f x) as [e'|x'] eqn:Hf; [|done]. intros [= <-]. eauto.
  - rewrite filter_cons_False by congruence.
    destruct (update_first p f l) as [e'|l'']; [|done].
    intros [= <-]. by apply IH.
Qed.

(** An update that keeps the selection and is stable on its own
    result can be repeated without effect. *)
Hypothesis stable :
  forall x x', p x = true -> f x = inr x' -> p x' = true /\ f x' = inr x'.

Lemma update_first_twice l l' :
  update_first p f l = inr l' -> update_first p f l' = inr l'.
Proof.
  revert l'; induction l as [|x l IH]; intros l'; cbn.
  - by intros [= <-].
  - destruct (p x) eqn:Hp.
    + destruct (f x) as [e|x'] eqn:Hf; [done|]. intros [= <-].
      destruct (stable x x' Hp Hf) as [Hp' Hf']. cbn. by rewrite Hp', Hf'.
    + destruct (update_first p f l) as [e|l''] eqn:Hu; [done|].
      intros [= <-]. cbn. by rewrite Hp, (IH l'' eq_refl).
Qed.

Lemma update_first_head l l' :
  update_first p f l = inr l' ->
  match head (filter (fun x => p x = true) l) with
  | Some x => exists x', f x = inr x' /\
                         head (filter (fun x => p x = true) l') = Some x'
  | None => l' = l
  end.
Proof.
  revert l'; induction l as [|x l IH]; intros l'; cbn [update_first].
  - by intros [= <-].
  - destruct (p x) eqn:Hp.
    + rewrite filter_cons_True by done. cbn [head].
      destruct (f x) as [e|x'] eqn:Hf; [done|]. intros [= <-].
      exists x'. split; [done|].
      destruct (stable x x' Hp Hf) as [Hp' _].
      by rewrite filter_cons_True.
    + rewrite filter_cons_False by congruence.
      destruct (update_first p f l) as [e|l''] eqn:Hu; [done|].
      intros [= <-]. specialize (IH l'' eq_refl).
      rewrite filter_cons_False by congruence.
      destruct (head (filter (fun x => p x = true) l)); [done|].
      by rewrite IH.
Qed.
End UpdateFirst.

Lemma add_to_set_stable o v x x' :
  doc_matches (by_id o) x = true -> add_to_set "tracks" v x = inr x' ->
  doc_matches (by_id o) x' = true /\ add_to_set "tracks" v x' = inr x'.
Proof.
  rewrite !doc_matches_by_id. unfold add_to_set. intros Hid.
  destruct (x !! "tracks") as [[| | | | |l|]|] eqn:Ht; try done.
  - case_bool_decide as Hin; intros [= <-].
    + rewrite Ht. by rewrite bool_decide_eq_true_2.
    + rewrite lookup_insert_ne by done. split; [done|].
      rewrite lookup_insert_eq, bool_decide_eq_true_2; [done|].
      apply elem_of_app. right. by apply list_elem_of_singleton.
  - intros [= <-]. rewrite lookup_insert_ne by done. split; [done|].
    rewrite lookup_insert_eq, bool_decide_eq_true_2; [done|].
    by apply list_elem_of_singleton.
Qed.

Lemma add_to_set_tracks v x x' l :
  x !! "tracks" = Some (VList l) -> add_to_set "tracks" v x = inr x' ->
  x' !! "tracks" = Some (VList (if bool_decide (v ∈ l) then l else l ++ [v])).
Proof.
  unfold add_to_set. intros Ht. rewrite Ht.
  case_bool_decide; intros [= <-]; [done|]. by rewrite lookup_insert_eq.
Qed.

Lemma playlist_update_nil d p t :
  collections d !! "playlist" = None -> playlist_update d p t = inr [].
Proof. unfold playlist_update, collection. by intros ->. Qed.

Lemma playlist_update_collection d p t l' :
  playlist_update d p t = inr l' ->
  collection (with_playlists d l') "playlist" = l'.
Proof.
  intros Hu. apply collection_with_playlists. intros Hnone.
  rewrite (playlist_update_nil d p t Hnone) in Hu. congruence.
Qed.

(** The add-track route on well-formed identifiers and a configured
    database: one update, one lookup. *)
Lemma add_track_run w d pid tid p t :
  db w = Some d -> ObjectId_parse pid = Some p -> ObjectId_parse tid = Some t ->
  add_track_to_playlist pid {| track_id := tid |} w =
  match playlist_update d p t with
  | inr l' =>
      (inr (serialize_doc (head (matching (by_id p) l'))),
       log_op (OpFindOne "playlist")
         (log_op (OpUpdate "playlist") (set_db (with_playlists d l') w)))
  | inl e =>
      (inl (HTTPException 400 (DetailStr e)), log_op (OpUpdate "playlist") w)
  end.
Proof.
  intros Hdb Hp Ht.
  unfold add_track_to_playlist, try_except, bind. cbn [track_id].
  rewrite (ObjectId_is_valid_parse _ _ Ht).
  unfold ObjectId_new. rewrite Hp, Ht. unfold ret at 1 2 3 4.
  unfold update_one_addToSet. rewrite Hdb.
  fold (by_id p). fold (playlist_update d p t).
  destruct (playlist_update d p t) as [e|l'] eqn:Hu; [done|].
  fold (with_playlists d l').
  unfold find_one, ret. cbn [db log_op set_db].
  by rewrite (playlist_update_collection d p t l' Hu).
Qed.

Lemma add_track_run_no_db w pid tid p t :
  db w = None -> ObjectId_parse pid = Some p -> ObjectId_parse tid = Some t ->
  add_track_to_playlist pid {| track_id := tid |} w =
  (inl (HTTPException 400 (DetailStr TypeError_NoneType)), w).
Proof.
  intros Hdb Hp Ht.
  unfold add_track_to_playlist, try_except, bind. cbn [track_id].
  rewrite (ObjectId_is_valid_parse _ _ Ht).
  unfold ObjectId_new. rewrite Hp, Ht. unfold ret at 1 2 3 4.
  unfold update_one_addToSet. by rewrite Hdb.
Qed.

Lemma add_track_malformed_run w playlist_id payload :
  ObjectId_parse playlist_id = None \/ ObjectId_parse (track_id payload) = None ->
  exists detail,
    add_track_to_playlist playlist_id payload w =
      (inl (HTTPException 400 detail), w).
Proof.
  intros Hbad.
  unfold add_track_to_playlist, try_except, bind, ObjectId_new.
  destruct (ObjectId_parse playlist_id) as [p|] eqn:Hp.
  - destruct Hbad as [|Ht]; [done|].
    rewrite (ObjectId_is_valid_None _ Ht), Ht. cbn. eauto.
  - cbn. eauto.
Qed.

(** C7: a request whose playlist id or track id is not a well-formed
    identifier token, that is, one the [ObjectId] constructor refuses,
    is answered with status 400, and nothing reaches the database: the
    stored collections and the trace of database calls are the ones the
    request found. *)
Theorem add_track_malformed_id (w : World) (playlist_id : string)
    (payload : AddTrackPayload) :
  ObjectId_parse playlist_id = None \/ ObjectId_parse (track_id payload) = None ->
  exists detail,
    add_track_to_playlist playlist_id payload w =
      (inl (HTTPException 400 detail), w) /\
    status_of (answer (add_track_to_playlist playlist_id payload) w) = 400%Z /\
    after (add_track_to_playlist playlist_id payload) w = w /\
    db (after (add_track_to_playlist playlist_id payload) w) = db w /\
    oplog (after (add_track_to_playlist playlist_id payload) w) = oplog w.
Proof.
  intros Hbad.
  destruct (add_track_malformed_run w playlist_id payload Hbad) as [detail Hrun].
  exists detail. unfold answer, after. by rewrite Hrun.
Qed.

Lemma add_track_malformed_id_witness :
  exists detail,
    add_track_to_playlist "bad-id" {| track_id := "alsobad" |} (after seed empty_world) =
      (inl (HTTPException 400 detail), after seed empty_world) /\
    status_of (answer (add_track_to_playlist "bad-id" {| track_id := "alsobad" |})
                 (after seed empty_world)) = 400%Z.
Proof.
  destruct (add_track_malformed_id (after seed empty_world) "bad-id"
              {| track_id := "alsobad" |}) as (detail & Hrun & Hstatus & _).
  - left. vm_compute. reflexivity.
  - exists detail. split; [exact Hrun | exact Hstatus].
Defined.

(** What the constructor takes for well-formed is wider than 24
    hexadecimal digits: [bytes.fromhex] skips ASCII whitespace between
    bytes, so a token of 24 characters with whitespace among its digit
    pairs is accepted, as an identifier of fewer than twelve bytes, and
    the request goes on to the database; whitespace inside a pair is
    refused. *)
Lemma add_track_whitespace_ids :
  ObjectId_parse "00000000000000000000  ab" =
    Some [Byte.x00; Byte.x00; Byte.x00; Byte.x00; Byte.x00; Byte.x00;
          Byte.x00; Byte.x00; Byte.x00; Byte.x00; Byte.xab] /\
  ObjectId_is_valid "00000000000000000000  ab" = true /\
  ObjectId_parse "00000000000000000000a b0" = None /\
  add_track_to_playlist "0000000000000000000000  "
    {| track_id := "00000000000000000000  ab" |} (after seed empty_world) =
    (inr None,
     log_op (OpFindOne "playlist")
       (log_op (OpUpdate "playlist") (after seed empty_world))).
Proof. repeat split; vm_compute; reflexivity. Qed.

(** C6, as the code has it: with two well-formed identifiers and no
    playlist stored under the given one, the route answers 200 with the
    absent document ([null]) and the database is left as it was. *)
Theorem add_track_missing_playlist (w : World) (d : Database)
    (playlist_id tid : string) (p t : ObjectId) :
  db w = Some d ->
  ObjectId_parse playlist_id = Some p -> ObjectId_parse tid = Some t ->
  (forall x, x ∈ collection d "playlist" -> x !! "_id" <> Some (VOid p)) ->
  answer (add_track_to_playlist playlist_id {| track_id := tid |}) w = inr None /\
  status_of (answer (add_track_to_playlist playlist_id {| track_id := tid |}) w)
    = 200%Z /\
  db (after (add_track_to_playlist playlist_id {| track_id := tid |}) w) = Some d.
Proof.
  intros Hdb Hp Ht Hnone. unfold answer, after.
  rewrite (add_track_run w d _ _ p t Hdb Hp Ht).
  unfold playlist_update.
  rewrite update_first_no_match.
  - rewrite (matching_by_id_none p _ Hnone). cbn.
    by rewrite with_playlists_same.
  - intros x Hx. apply not_true_is_false. rewrite doc_matches_by_id.
    by apply Hnone.
Qed.

Lemma add_track_missing_playlist_witness :
  answer (add_track_to_playlist "0000000000000000000000aa"
            {| track_id := "000000000000000000000000" |}) (after seed empty_world)
    = inr None /\
  status_of (answer (add_track_to_playlist "0000000000000000000000aa"
                       {| track_id := "000000000000000000000000" |})
               (after seed empty_world)) = 200%Z /\
  db (after (add_track_to_playlist "0000000000000000000000aa"
               {| track_id := "000000000000000000000000" |})
        (after seed empty_world)) = db (after seed empty_world).
Proof.
  apply (add_track_missing_playlist (after seed empty_world)
           (default empty_db (db (after seed empty_world)))
           "0000000000000000000000aa" "000000000000000000000000" (oid_of_N 170) (oid_of_N 0)).
  - vm_compute. reflexivity.
  - vm_compute. reflexivity.
  - vm_compute. reflexivity.
  - intros x Hx. vm_compute in Hx. by apply elem_of_nil in Hx.
Defined.

(** C6, as stated, fails: on a configured database that holds no
    playlist, a request with two well-formed identifiers is answered
    with status 200 and a [null] body, not with 400. *)
Lemma add_track_missing_playlist_not_400 :
  let w := after seed empty_world in
  let r := answer (add_track_to_playlist "0000000000000000000000aa"
                     {| track_id := "000000000000000000000000" |}) w in
  ObjectId_is_valid "0000000000000000000000aa" = true /\
  ObjectId_is_valid "000000000000000000000000" = true /\
  matching (by_id (oid_of_N 170)) (collection (default empty_db (db w)) "playlist") = [] /\
  r = inr None /\ status_of r <> 400%Z.
Proof. vm_compute. repeat split; done. Qed.

(** Repeating an add-track request changes neither the database nor
    the answer. *)
Lemma add_track_repeat w playlist_id payload :
  let w1 := after (add_track_to_playlist playlist_id payload) w in
  db (after (add_track_to_playlist playlist_id payload) w1) = db w1 /\
  answer (add_track_to_playlist playlist_id payload) w1 =
  answer (add_track_to_playlist playlist_id payload) w.
Proof.
  cbn zeta. destruct payload as [tid]. unfold after, answer.
  destruct (ObjectId_parse playlist_id) as [p|] eqn:Hp; cycle 1.
  { destruct (add_track_malformed_run w playlist_id {| track_id := tid |})
      as (detail & Hrun); [by left|].
    rewrite Hrun. cbn. by rewrite Hrun. }
  destruct (ObjectId_parse tid) as [t|] eqn:Ht; cycle 1.
  { destruct (add_track_malformed_run w playlist_id {| track_id := tid |})
      as (detail & Hrun); [by right|].
    rewrite Hrun. cbn. by rewrite Hrun. }
  destruct (db w) as [d|] eqn:Hdb; cycle 1.
  { rewrite (add_track_run_no_db w _ _ p t Hdb Hp Ht). cbn.
    by rewrite (add_track_run_no_db w _ _ p t Hdb Hp Ht). }
  rewrite (add_track_run w d _ _ p t Hdb Hp Ht).
  destruct (playlist_update d p t) as [e|l'] eqn:Hu.
  - cbn [fst snd].
    rewrite (add_track_run (log_op (OpUpdate "playlist") w) d _ _ p t Hdb Hp Ht).
    rewrite Hu. done.
  - cbn [fst snd].
    rewrite (add_track_run
               (log_op (OpFindOne "playlist")
                  (log_op (OpUpdate "playlist") (set_db (with_playlists d l') w)))
               (with_playlists d l') _ _ p t eq_refl Hp Ht).
    assert (playlist_update (with_playlists d l') p t = inr l') as ->.
    { unfold playlist_update.
      rewrite (playlist_update_collection d p t l' Hu).
      apply (update_first_twice _ _ (add_to_set_stable p _) _ _ Hu). }
    cbn. by rewrite with_playlists_twice.
Qed.

(** The [tracks] field after an add-track request on a stored playlist
    whose [tracks] is a sequence. *)
Lemma add_track_tracks w d playlist_id tid p t l :
  db w = Some d ->
  ObjectId_parse playlist_id = Some p -> ObjectId_parse tid = Some t ->
  playlist_tracks d p = Some (VList l) ->
  exists d1,
    db (after (add_track_to_playlist playlist_id {| track_id := tid |}) w) = Some d1 /\
    playlist_tracks d1 p =
      Some (VList (if bool_decide (VStr (oid_str t) ∈ l) then l
                   else l ++ [VStr (oid_str t)])).
Proof.
  intros Hdb Hp Ht Htr. unfold after.
  rewrite (add_track_run w d _ _ p t Hdb Hp Ht).
  unfold playlist_tracks in Htr. unfold matching in Htr.
  destruct (playlist_update d p t) as [e|l'] eqn:Hu.
  - exfalso. apply update_first_fails in Hu as (x & Hx & Hf).
    rewrite Hx in Htr. cbn in Htr. unfold add_to_set in Hf.
    rewrite Htr in Hf. by case_bool_decide.
  - pose proof (update_first_head _ _ (add_to_set_stable p _) _ _ Hu) as Hh.
    destruct (head (filter _ (collection d "playlist"))) as [x|] eqn:Hx; [|done].
    cbn in Htr. destruct Hh as (x' & Hf & Hx').
    eexists. split; [reflexivity|].
    unfold playlist_tracks, matching.
    rewrite (playlist_update_collection d p t l' Hu), Hx'. cbn.
    apply (add_to_set_tracks _ _ _ _ Htr Hf).
Qed.

Lemma count_occ_add_once (v : value) (l : list value) :
  (count_occ value_eq_dec l v <= 1)%nat ->
  count_occ value_eq_dec (if bool_decide (v ∈ l) then l else l ++ [v]) v = 1%nat.
Proof.
  intros Hle. case_bool_decide as Hin.
  - apply list_elem_of_In, (count_occ_In value_eq_dec) in Hin. lia.
  - rewrite count_occ_app. cbn. destruct (value_eq_dec v v); [|done].
    rewrite list_elem_of_In, (count_occ_not_In value_eq_dec) in Hin. lia.
Qed.

(** C2: adding the same track identifier twice is the same as adding it
    once.  For every state and every request, the second identical
    request leaves the database (so the playlist's [tracks]) as the
    first one left it and gets the same answer; and when the request
    names a stored playlist whose [tracks] sequence held that identifier
    at most once, the sequence holds it exactly once afterwards. *)
Theorem add_track_twice (w : World) (playlist_id : string)
    (payload : AddTrackPayload) :
  let once := after (add_track_to_playlist playlist_id payload) w in
  let twice := after (add_track_to_playlist playlist_id payload) once in
  db twice = db once /\
  answer (add_track_to_playlist playlist_id payload) once =
    answer (add_track_to_playlist playlist_id payload) w /\
  forall d p t l,
    db w = Some d ->
    ObjectId_parse playlist_id = Some p ->
    ObjectId_parse (track_id payload) = Some t ->
    playlist_tracks d p = Some (VList l) ->
    (count_occ value_eq_dec l (VStr (oid_str t)) <= 1)%nat ->
    exists d2 l2,
      db twice = Some d2 /\ db once = Some d2 /\
      playlist_tracks d2 p = Some (VList l2) /\
      count_occ value_eq_dec l2 (VStr (oid_str t)) = 1%nat.
Proof.
  cbn zeta.
  destruct (add_track_repeat w playlist_id payload) as [Hdb Hans].
  split; [exact Hdb|]. split; [exact Hans|].
  intros d p t l Hd Hp Ht Htr Hcount. rewrite Hdb.
  destruct payload as [tid]. cbn [track_id] in Ht.
  destruct (add_track_tracks w d playlist_id tid p t l Hd Hp Ht Htr)
    as (d1 & Hd1 & Htr1).
  eexists d1, _. split; [exact Hd1|]. split; [exact Hd1|].
  split; [exact Htr1|]. by apply count_occ_add_once.
Qed.

(** C10: the route stores [str(ObjectId(track_id))], the lower-case
    hexadecimal form of the parsed identifier, not the string sent: it
    is the token without its whitespace, in lower case.  Two bodies
    whose [track_id] parse to the same identifier are handled alike,
    the value put into [tracks] is that string, and sending the second
    after the first adds nothing. *)
Theorem add_track_canonical (w : World) (playlist_id t1 t2 : string)
    (o : ObjectId) :
  ObjectId_parse t1 = Some o -> ObjectId_parse t2 = Some o ->
  let first := add_track_to_playlist playlist_id {| track_id := t1 |} in
  let second := add_track_to_playlist playlist_id {| track_id := t2 |} in
  py_str (VOid o) = lowercase (strip_spaces t1) /\
  py_str (VOid o) = lowercase (strip_spaces t2) /\
  (forall w0, second w0 = first w0) /\
  db (after second (after first w)) = db (after first w) /\
  forall d p l,
    db w = Some d -> ObjectId_parse playlist_id = Some p ->
    playlist_tracks d p = Some (VList l) ->
    exists d1,
      db (after first w) = Some d1 /\
      playlist_tracks d1 p =
        Some (VList (if bool_decide (VStr (py_str (VOid o)) ∈ l) then l
                     else l ++ [VStr (py_str (VOid o))])).
Proof.
  intros H1 H2. cbn zeta.
  assert (forall w0,
             add_track_to_playlist playlist_id {| track_id := t2 |} w0 =
             add_track_to_playlist playlist_id {| track_id := t1 |} w0) as Hsame.
  { intros w0. unfold add_track_to_playlist. cbn [track_id].
    rewrite (ObjectId_is_valid_parse _ _ H1), (ObjectId_is_valid_parse _ _ H2).
    unfold ObjectId_new. by rewrite H1, H2. }
  split; [by apply oid_str_parse|]. split; [by apply oid_str_parse|].
  split; [exact Hsame|]. split.
  - unfold after at 1. rewrite Hsame.
    apply (add_track_repeat w playlist_id {| track_id := t1 |}).
  - intros d p l Hd Hp Htr.
    by apply (add_track_tracks w d playlist_id t1 p o l).
Qed.

Lemma add_track_twice_witness :
  let w := after (create_playlist {| name := "mix"; description := None;
                                     pl_cover_url := None |}) empty_world in
  let add := add_track_to_playlist "000000000000000000000000"
               {| track_id := "0000000000000000000000AB" |} in
  exists d2 l2,
    db (after add (after add w)) = Some d2 /\ db (after add w) = Some d2 /\
    playlist_tracks d2 (oid_of_N 0) = Some (VList l2) /\
    count_occ value_eq_dec l2 (VStr (oid_str (oid_of_N 171))) = 1%nat.
Proof.
  cbn zeta.
  refine (proj2 (proj2 (add_track_twice _ "000000000000000000000000"
                          {| track_id := "0000000000000000000000AB" |}))
            _ (oid_of_N 0) (oid_of_N 171) [] _ _ _ _ _).
  - vm_compute. reflexivity.
  - vm_compute. reflexivity.
  - vm_compute. reflexivity.
  - vm_compute. reflexivity.
  - cbn. lia.
Defined.

Lemma add_track_canonical_witness :
  let w := after (create_playlist {| name := "mix"; description := None;
                                     pl_cover_url := None |}) empty_world in
  let first := add_track_to_playlist "000000000000000000000000"
                 {| track_id := "00000000000000000000  AB" |} in
  let second := add_track_to_playlist "000000000000000000000000"
                  {| track_id := " 00000000000000000000ab " |} in
  py_str (VOid [Byte.x00; Byte.x00; Byte.x00; Byte.x00; Byte.x00; Byte.x00;
                Byte.x00; Byte.x00; Byte.x00; Byte.x00; Byte.xab])
    = "00000000000000000000ab" /\
  db (after second (after first w)) = db (after first w).
Proof.
  cbn zeta.
  destruct (add_track_canonical
              (after (create_playlist {| name := "mix"; description := None;
                                         pl_cover_url := None |}) empty_world)
              "000000000000000000000000"
              "00000000000000000000  AB" " 00000000000000000000ab "
              [Byte.x00; Byte.x00; Byte.x00; Byte.x00; Byte.x00; Byte.x00;
               Byte.x00; Byte.x00; Byte.x00; Byte.x00; Byte.xab])
    as (Hstr & _ & _ & Hdb & _).
  - vm_compute. reflexivity.
  - vm_compute. reflexivity.
  - split; [vm_compute; reflexivity | exact Hdb].
Defined.

(** ** Inserting *)

Lemma oid_modulus_gt : (2 < oid_modulus)%N.
Proof. reflexivity. Qed.

Lemma gen_oid_shift_ne n k :
  (0 < k)%N -> (k < oid_modulus)%N ->
  ((n + k) mod oid_modulus <> n mod oid_modulus)%N.
Proof.
  intros Hk0 Hk. pose proof oid_modulus_gt as HM.
  rewrite <- N.Div0.add_mod_idemp_l.
  assert (n mod oid_modulus < oid_modulus)%N as Hr by (apply N.mod_lt; lia).
  revert Hr. generalize (n mod oid_modulus)%N as r. intros r Hr.
  destruct (N.lt_ge_cases (r + k) oid_modulus) as [Hlt|Hge].
  - rewrite N.mod_small by done. lia.
  - assert ((r + k) mod oid_modulus = r + k - oid_modulus)%N as ->.
    { symmetry. apply (N.mod_unique _ _ 1); lia. }
    lia.
Qed.

Lemma oid_of_N_shift_ne n k :
  (0 < k)%N -> (k < oid_modulus)%N -> oid_of_N (n + k) <> oid_of_N n.
Proof.
  intros Hk0 Hk Heq. apply (f_equal oid_to_N) in Heq.
  rewrite !oid_to_of_N in Heq. by apply (gen_oid_shift_ne n k).
Qed.

Lemma Some_VOid_inj (a b : ObjectId) : Some (VOid a) = Some (VOid b) -> a = b.
Proof. congruence. Qed.

Lemma fits_int64_small z : (0 <= z < 2 ^ 63)%Z -> fits_int64 z = true.
Proof. intros H. unfold fits_int64. apply andb_true_iff. lia. Qed.

Lemma doc_encodable_insert k v (x : doc) :
  bson_ok v = true -> doc_encodable x -> doc_encodable (<[k := v]> x).
Proof. intros Hv Hx. by apply map_Forall_insert_2. Qed.

Lemma doc_encodable_empty : doc_encodable ∅.
Proof. apply map_Forall_empty. Qed.

Lemma collection_store name x d :
  collection (store name x d) name = collection d name ++ [x].
Proof. unfold collection at 1, store. cbn. by rewrite lookup_insert_eq. Qed.

Lemma collection_store_ne name name' x d :
  name <> name' -> collection (store name x d) name' = collection d name'.
Proof.
  intros Hne. unfold collection, store. cbn. by rewrite lookup_insert_ne.
Qed.

Lemma existsb_id_false (key : value) (l : list doc) :
  (forall x, x ∈ l -> x !! "_id" <> Some key) ->
  List.existsb (fun x => bool_decide (x !! "_id" = Some key)) l = false.
Proof.
  induction l as [|x l IH]; intros H; [done|]. cbn.
  rewrite bool_decide_eq_false_2 by (apply H; by left).
  apply IH. intros y Hy. apply H. by right.
Qed.

(** Inserting a document that brings no [_id], when the generated
    identifier is not yet in the collection. *)
Lemma insert_one_generated name data d :
  data !! "_id" = None -> doc_encodable data ->
  (forall x, x ∈ collection d name -> x !! "_id" <> Some (VOid (gen_oid d))) ->
  insert_one name data d =
  inr (VOid (gen_oid d), store name (<["_id" := VOid (gen_oid d)]> data) d).
Proof.
  intros Hid Henc Hnew. unfold insert_one. rewrite Hid, lookup_insert_eq.
  rewrite bool_decide_eq_true_2 by (by apply doc_encodable_insert).
  cbn. by rewrite existsb_id_false.
Qed.


Lemma create_document_run w d name data :
  db w = Some d -> data !! "_id" = None -> doc_encodable data ->
  (forall x, x ∈ collection d name -> x !! "_id" <> Some (VOid (gen_oid d))) ->
  create_document name data w =
  (inr (oid_str (gen_oid d)),
   log_op (OpInsert name)
     (set_db (store name (<["_id" := VOid (gen_oid d)]> data) d) w)).
Proof.
  intros Hdb Hid Henc Hnew. unfold create_document.
  by rewrite Hdb, (insert_one_generated _ _ _ Hid Henc Hnew).
Qed.

(** ** C5: seeding *)

Lemma seed_nonempty w d :
  db w = Some d -> collection d "track" <> [] ->
  seed w = (inr (seed_skipped (Z.of_nat (length (collection d "track")))),
            log_op (OpCount "track") w).
Proof.
  intros Hdb Hne. unfold seed, bind at 1, get_state. rewrite Hdb.
  unfold bind at 1, count_documents. rewrite Hdb, matching_empty.
  destruct (collection d "track") as [|x l]; [done|].
  reflexivity.
Qed.

Lemma seed_empty w d :
  db w = Some d -> collection d "track" = [] ->
  exists d',
    seed w = (inr (seed_done 3),
              log_op (OpInsert "track") (log_op (OpInsert "track")
                (log_op (OpInsert "track") (log_op (OpCount "track")
                   (set_db d' w))))) /\
    collection d' "track" = with_ids (next_oid d) demo_tracks.
Proof.
  intros Hdb Hnil. unfold seed, bind at 1, get_state. rewrite Hdb.
  unfold bind at 1, count_documents. rewrite Hdb, matching_empty, Hnil.
  cbn [length Z.of_nat Z.gtb Z.compare].
  unfold demo_tracks. cbn [for_each].
  set (t1 := demo_track "Dreamscape" _ _ _ _ _).
  set (t2 := demo_track "Sunset Drive" _ _ _ _ _).
  set (t3 := demo_track "Crystal Air" _ _ _ _ _).
  pose proof oid_modulus_gt as HM.
  set (d1 := store "track" (<["_id" := VOid (gen_oid d)]> t1) d).
  set (d2 := store "track" (<["_id" := VOid (gen_oid d1)]> t2) d1).
  set (d3 := store "track" (<["_id" := VOid (gen_oid d2)]> t3) d2).
  assert (collection d1 "track" = [<["_id" := VOid (gen_oid d)]> t1]) as Hc1.
  { unfold d1. by rewrite collection_store, Hnil. }
  assert (collection d2 "track" =
          [<["_id" := VOid (gen_oid d)]> t1; <["_id" := VOid (gen_oid d1)]> t2]) as Hc2.
  { unfold d2. by rewrite collection_store, Hc1. }
  assert (collection d3 "track" =
          [<["_id" := VOid (gen_oid d)]> t1; <["_id" := VOid (gen_oid d1)]> t2;
           <["_id" := VOid (gen_oid d2)]> t3]) as Hc3.
  { unfold d3. by rewrite collection_store, Hc2. }
  assert (gen_oid d1 = oid_of_N (next_oid d + 1)) as Hg1 by done.
  assert (gen_oid d2 = oid_of_N (next_oid d + 2)) as Hg2.
  { unfold gen_oid, d2, d1. cbn [next_oid store]. f_equal. lia. }
  assert (forall title artist album cover audio dur,
             (0 <= dur < 2 ^ 63)%Z ->
             doc_encodable (demo_track title artist album cover audio dur))
    as Henc.
  { intros. unfold demo_track.
    repeat (apply doc_encodable_insert; [by (done || apply fits_int64_small)|]).
    apply doc_encodable_empty. }
  exists d3. split.
  - change (Z.of_nat 0 >? 0)%Z with false. unfold bind, ret. cbv beta iota.
    set (w0 := log_op (OpCount "track") w).
    rewrite (create_document_run w0 d "track" t1 Hdb); cycle 1.
    { reflexivity. }
    { apply Henc. lia. }
    { rewrite Hnil. intros x Hx. by apply elem_of_nil in Hx. }
    fold d1. set (w1 := log_op (OpInsert "track") (set_db d1 w0)).
    cbv beta iota.
    rewrite (create_document_run w1 d1 "track" t2 eq_refl); cycle 1.
    { reflexivity. }
    { apply Henc. lia. }
    { rewrite Hc1. intros x ->%list_elem_of_singleton.
      rewrite lookup_insert_eq, Hg1. intros Heq%Some_VOid_inj.
      symmetry in Heq. revert Heq. apply oid_of_N_shift_ne; lia. }
    fold d2. set (w2 := log_op (OpInsert "track") (set_db d2 w1)).
    cbv beta iota.
    rewrite (create_document_run w2 d2 "track" t3 eq_refl); cycle 1.
    { reflexivity. }
    { apply Henc. lia. }
    { rewrite Hc2. intros x [->|[->|[]%elem_of_nil]%elem_of_cons]%elem_of_cons;
        rewrite lookup_insert_eq; intros Heq%Some_VOid_inj;
        symmetry in Heq; revert Heq.
      - rewrite Hg2. apply oid_of_N_shift_ne; lia.
      - rewrite Hg1, Hg2. replace (next_oid d + 2)%N with (next_oid d + 1 + 1)%N by lia.
        apply oid_of_N_shift_ne; lia. }
    fold d3. cbv beta iota. reflexivity.
  - rewrite Hc3, Hg1, Hg2. unfold with_ids, gen_oid. cbn.
    by rewrite N.add_0_r.
Qed.

(** C5: with a configured database, [POST /seed] on a non-empty track
    collection reports [seeded: false] with the existing count, makes
    one counting call and no insert, and leaves the database as it was;
    on an empty track collection it stores exactly the three demo tracks
    and reports [seeded: true, count: 3]; a second call then reports
    [seeded: false, existing: 3] and leaves the three tracks. *)
Theorem seed_idempotent (w : World) (d : Database) :
  db w = Some d ->
  (collection d "track" <> [] ->
     seed w = (inr (seed_skipped (Z.of_nat (length (collection d "track")))),
               log_op (OpCount "track") w) /\
     db (after seed w) = Some d) /\
  (collection d "track" = [] ->
     exists d',
       answer seed w = inr (seed_done 3) /\
       db (after seed w) = Some d' /\
       collection d' "track" = with_ids (next_oid d) demo_tracks /\
       length (collection d' "track") = 3%nat /\
       seed (after seed w) =
         (inr (seed_skipped 3), log_op (OpCount "track") (after seed w)) /\
       db (after seed (after seed w)) = Some d').
Proof.
  intros Hdb. split.
  - intros Hne. unfold after. rewrite (seed_nonempty w d Hdb Hne). done.
  - intros Hnil. destruct (seed_empty w d Hdb Hnil) as (d' & Hrun & Hcoll).
    exists d'. unfold answer, after. rewrite Hrun. cbn [fst snd].
    assert (length (collection d' "track") = 3%nat) as Hlen.
    { rewrite Hcoll. reflexivity. }
    split; [done|]. split; [done|]. split; [done|]. split; [done|].
    set (w' := log_op _ _).
    assert (db w' = Some d') as Hdb' by reflexivity.
    rewrite (seed_nonempty w' d' Hdb').
    + rewrite Hlen. done.
    + intros Hc. rewrite Hc in Hlen. done.
Qed.

Lemma seed_idempotent_witness :
  answer seed empty_world = inr (seed_done 3) /\
  answer seed (after seed empty_world) = inr (seed_skipped 3) /\
  db (after seed (after seed empty_world)) = db (after seed empty_world).
Proof.
  destruct (seed_idempotent empty_world empty_db eq_refl) as [_ Hempty].
  destruct Hempty as (d' & Hans & Hdb & _ & _ & Hagain & Hdb2).
  { vm_compute. reflexivity. }
  split; [exact Hans|]. split.
  - unfold answer. rewrite Hagain. reflexivity.
  - rewrite Hdb2, Hdb. reflexivity.
Defined.

(** ** C1: creating a track *)

Lemma Track_model_dump_no_id t : Track_model_dump t !! "_id" = None.
Proof. unfold Track_model_dump. by rewrite !lookup_insert_ne, lookup_empty. Qed.

Lemma Track_model_dump_no_ObjectId t : no_ObjectId_values (Track_model_dump t).
Proof.
  unfold no_ObjectId_values, Track_model_dump.
  repeat (apply map_Forall_insert_2;
          [first [reflexivity | by destruct (album t) | by destruct (cover_url t)
                 | by destruct (duration_ms t)] |]).
  apply map_Forall_empty.
Qed.

Lemma db_wf_collection d name x :
  db_wf d = true -> x ∈ collection d name -> id_below (next_oid d) x = true.
Proof.
  unfold db_wf, collection. intros [_ Hall]%andb_true_iff Hx.
  destruct (collections d !! name) as [l|] eqn:Hl; [|by apply elem_of_nil in Hx].
  cbn in Hx. rewrite forallb_forall in Hall.
  specialize (Hall (name, l)). cbn in Hall.
  rewrite forallb_forall in Hall.
  apply Hall; [|by apply list_elem_of_In].
  apply list_elem_of_In. by apply elem_of_map_to_list.
Qed.

Lemma db_wf_next_oid d : db_wf d = true -> (next_oid d < oid_modulus)%N.
Proof. unfold db_wf. by intros [Hlt%N.ltb_lt _]%andb_true_iff. Qed.

Lemma oid_to_N_gen_oid d : db_wf d = true -> oid_to_N (gen_oid d) = next_oid d.
Proof.
  intros Hlt%db_wf_next_oid. unfold gen_oid.
  rewrite oid_to_of_N. by apply N.mod_small.
Qed.

Lemma db_wf_new_id d name x :
  db_wf d = true -> x ∈ collection d name ->
  x !! "_id" <> Some (VOid (gen_oid d)).
Proof.
  intros Hwf Hx Hid. pose proof (db_wf_collection d name x Hwf Hx) as Hb.
  unfold id_below in Hb. rewrite Hid in Hb.
  apply andb_true_iff in Hb as [_ Hb%N.ltb_lt].
  rewrite oid_to_N_gen_oid in Hb by done. lia.
Qed.

Lemma db_wf_iff d :
  db_wf d = true <->
  (next_oid d < oid_modulus)%N /\
  forall name x, x ∈ collection d name -> id_below (next_oid d) x = true.
Proof.
  split.
  - intros Hwf. split.
    + unfold db_wf in Hwf. by apply andb_true_iff in Hwf as [?%N.ltb_lt _].
    + intros name x. by apply db_wf_collection.
  - intros [Hlt Hall]. unfold db_wf. apply andb_true_iff. split.
    + by apply N.ltb_lt.
    + apply forallb_forall. intros [name l] Hin%list_elem_of_In.
      apply elem_of_map_to_list in Hin. cbn.
      apply forallb_forall. intros x Hx%list_elem_of_In.
      apply (Hall name). unfold collection. by rewrite Hin.
Qed.

Lemma id_below_mono n m x : (n <= m)%N -> id_below n x = true -> id_below m x = true.
Proof.
  unfold id_below. destruct (x !! "_id") as [[| | | |o| |]|]; try done.
  rewrite !andb_true_iff, !N.ltb_lt. intros Hle [? ?]. split; [done|lia].
Qed.

(** Storing a record under the generated identifier keeps the database
    within what the counter has handed out, as long as the counter
    stays in range. *)
Lemma db_wf_store d name data :
  db_wf d = true -> (next_oid d + 1 < oid_modulus)%N ->
  db_wf (store name (<["_id" := VOid (gen_oid d)]> data) d) = true.
Proof.
  intros Hwf. pose proof (oid_to_N_gen_oid d Hwf) as Hgen. revert Hwf.
  rewrite !db_wf_iff. intros [_ Hall] Hlt. split; [done|].
  intros name' x. cbn [next_oid store].
  destruct (decide (name = name')) as [<-|Hne].
  - rewrite collection_store. intros [Hx| ->%list_elem_of_singleton]%elem_of_app.
    + apply (id_below_mono (next_oid d)); [lia|]. by apply (Hall name).
    + unfold id_below. rewrite lookup_insert_eq, Hgen.
      unfold gen_oid. rewrite length_oid_of_N. apply N.ltb_lt. lia.
  - rewrite collection_store_ne by done. intros Hx.
    apply (id_below_mono (next_oid d)); [lia|]. by apply (Hall name').
Qed.

(** Serializing a freshly stored record: [_id] becomes the string [id]
    and nothing else changes. *)
Lemma serialize_doc_stored (data : doc) (o : ObjectId) :
  data !! "_id" = None -> no_ObjectId_values data ->
  serialize_doc (Some (<["_id" := VOid o]> data)) =
  Some (<["id" := VStr (oid_str o)]> data).
Proof.
  intros Hid Hno. cbn [serialize_doc].
  rewrite decide_False by apply insert_non_empty. f_equal.
  rewrite serialize_dict_fmap. unfold rename_id.
  rewrite lookup_insert_eq. cbn [truthy py_str].
  rewrite delete_insert_id by done.
  rewrite fmap_insert. cbn. f_equal.
  apply map_eq; intros k. rewrite lookup_fmap.
  destruct (data !! k) as [v|] eqn:Hk; [|done]. cbn.
  unfold convert_value. by rewrite (Hno k v Hk).
Qed.

Lemma matching_by_id_snoc o l x :
  (forall y, y ∈ l -> y !! "_id" <> Some (VOid o)) ->
  x !! "_id" = Some (VOid o) ->
  matching (by_id o) (l ++ [x]) = [x].
Proof.
  intros Hl Hx. unfold matching. rewrite filter_app.
  fold (matching (by_id o) l). rewrite (matching_by_id_none o l Hl).
  rewrite filter_cons_True by by apply doc_matches_by_id.
  done.
Qed.

Lemma Track_model_dump_encodable t :
  duration_fits t -> doc_encodable (Track_model_dump t).
Proof.
  intros Hfit. unfold Track_model_dump.
  repeat (apply doc_encodable_insert;
          [first [reflexivity | by destruct (album t) | by destruct (cover_url t)
                 | idtac] |]).
  - destruct (duration_ms t) as [z|] eqn:Hz; [|done]. by apply Hfit.
  - apply doc_encodable_empty.
Qed.


Lemma create_track_run w d payload :
  db w = Some d -> db_wf d = true -> duration_fits payload ->
  create_track payload w =
  (inr (Some (<["id" := VStr (oid_str (gen_oid d))]> (Track_model_dump payload))),
   log_op (OpFindOne "track")
     (log_op (OpInsert "track")
        (set_db (store "track"
                   (<["_id" := VOid (gen_oid d)]> (Track_model_dump payload)) d)
           w))).
Proof.
  intros Hdb Hwf Hfit.
  unfold create_track, try_except, bind. cbv beta zeta.
  rewrite (create_document_run w d "track" _ Hdb (Track_model_dump_no_id payload)
             (Track_model_dump_encodable payload Hfit));
    cycle 1.
  { intros x Hx. by apply (db_wf_new_id d "track"). }
  cbv beta iota. unfold get_state. cbn [db log_op set_db].
  unfold ObjectId_new.
  rewrite ObjectId_parse_str by apply length_oid_of_N.
  unfold ret at 1. unfold find_one. cbn [db log_op set_db].
  rewrite collection_store.
  rewrite (matching_by_id_snoc (gen_oid d)); cycle 1.
  { intros y Hy. by apply (db_wf_new_id d "track"). }
  { apply lookup_insert_eq. }
  cbn [head]. unfold ret.
  rewrite (serialize_doc_stored _ _ (Track_model_dump_no_id payload)
             (Track_model_dump_no_ObjectId payload)).
  reflexivity.
Qed.

(** The route keeps the database within what the counter has handed
    out, so the precondition of the next request holds again. *)
Lemma create_track_wf w d payload :
  db w = Some d -> db_wf d = true -> (next_oid d + 1 < oid_modulus)%N ->
  duration_fits payload ->
  exists d', db (after (create_track payload) w) = Some d' /\ db_wf d' = true.
Proof.
  intros Hdb Hwf Hlt Hfit. unfold after.
  rewrite (create_track_run w d payload Hdb Hwf Hfit). cbn [snd db log_op set_db].
  eexists. split; [reflexivity|]. by apply db_wf_store.
Qed.

(** C1, as the code has it.  On a configured database whose identifiers
    came from its counter, [POST /tracks] with a payload whose duration,
    when given, fits in eight bytes (a signed 64-bit integer, the
    largest BSON stores) stores the payload under the next generated
    identifier and answers with the serialization of the stored record
    found again under that identifier: the payload's fields plus [id],
    a string that differs from the string of every identifier generated
    before and that no stored document carries.  A later [GET /tracks]
    whose limit exceeds the number of tracks stored before the insert
    lists that record. *)
Theorem create_track_roundtrip (w : World) (d : Database) (payload : CreateTrack) :
  db w = Some d -> db_wf d = true ->
  (forall z, duration_ms payload = Some z -> fits_int64 z = true) ->
  let new := gen_oid d in
  let stored := <["_id" := VOid new]> (Track_model_dump payload) in
  let record := <["id" := VStr (oid_str new)]> (Track_model_dump payload) in
  let w' := after (create_track payload) w in
  answer (create_track payload) w = inr (Some record) /\
  db w' = Some (store "track" stored d) /\
  collection (store "track" stored d) "track" = collection d "track" ++ [stored] /\
  head (matching (by_id new) (collection (store "track" stored d) "track"))
    = Some stored /\
  serialize_doc (Some stored) = Some record /\
  record !! "id" = Some (VStr (oid_str new)) /\
  (forall k, (k < next_oid d)%N -> oid_str (oid_of_N k) <> oid_str new) /\
  (forall name x, x ∈ collection d name -> x !! "_id" <> Some (VOid new)) /\
  (forall k v, Track_model_dump payload !! k = Some v -> record !! k = Some v) /\
  forall limit,
    (Z.of_nat (length (collection d "track")) < default 50%Z limit)%Z ->
    exists rs, answer (list_tracks limit) w' = inr rs /\ Some record ∈ rs.
Proof.
  intros Hdb Hwf Hfit new stored record w'.
  pose proof (db_wf_next_oid d Hwf) as Hnew.
  assert (serialize_doc (Some stored) = Some record) as Hser.
  { apply serialize_doc_stored;
      [apply Track_model_dump_no_id | apply Track_model_dump_no_ObjectId]. }
  unfold w', answer, after. rewrite (create_track_run w d payload Hdb Hwf Hfit).
  cbn [fst snd db log_op set_db]. fold new stored record.
  split; [done|]. split; [done|].
  split; [apply collection_store|].
  split.
  { rewrite collection_store, (matching_by_id_snoc new); [done| |].
    - intros y Hy. by apply (db_wf_new_id d "track").
    - apply lookup_insert_eq. }
  split; [exact Hser|].
  split; [apply lookup_insert_eq|].
  split.
  { intros k Hk Heq. apply oid_str_inj in Heq.
    apply (oid_of_N_inj k (next_oid d)) in Heq; lia. }
  split.
  { intros name x Hx. by apply (db_wf_new_id d name). }
  split.
  { intros k v Hk. unfold record. rewrite lookup_insert_ne; [done|].
    intros <-. unfold Track_model_dump in Hk.
    by rewrite !lookup_insert_ne, lookup_empty in Hk. }
  intros limit Hlimit.
  set (w1 := log_op _ _).
  rewrite (list_tracks_run w1 (store "track" stored d) limit eq_refl).
  eexists. split; [reflexivity|].
  rewrite collection_store, take_ge by (rewrite length_app; cbn; lia).
  rewrite map_app. apply elem_of_app. right. cbn [map]. rewrite Hser.
  by apply list_elem_of_singleton.
Qed.

Lemma create_track_roundtrip_witness :
  let payload := {| title := "X"; artist := "Y"; album := None;
                    cover_url := None; audio_url := "http://a/b.mp3";
                    duration_ms := None |} in
  let w := after seed empty_world in
  answer (create_track payload) w =
    inr (Some (<["id" := VStr "000000000000000000000003"]> (Track_model_dump payload))) /\
  exists rs,
    answer (list_tracks None) (after (create_track payload) w) = inr rs /\
    Some (<["id" := VStr "000000000000000000000003"]> (Track_model_dump payload)) ∈ rs.
Proof.
  cbn zeta.
  destruct (create_track_roundtrip (after seed empty_world)
              (default empty_db (db (after seed empty_world)))
              {| title := "X"; artist := "Y"; album := None;
                 cover_url := None; audio_url := "http://a/b.mp3";
                 duration_ms := None |})
    as (Hans & _ & _ & _ & _ & _ & _ & _ & _ & Hlist).
  - vm_compute. reflexivity.
  - vm_compute. reflexivity.
  - intros z Hz. discriminate Hz.
  - split; [exact Hans|]. apply (Hlist None). vm_compute. reflexivity.
Defined.

(** C1, as stated, fails on the listing: once fifty tracks are stored,
    the record [POST /tracks] answers with is not among the records a
    following [GET /tracks] (default limit) lists. *)
Lemma create_track_not_listed :
  let payload := {| title := "X"; artist := "Y"; album := None;
                    cover_url := None; audio_url := "http://a/b.mp3";
                    duration_ms := None |} in
  let w := Nat.iter 50 (after (create_track payload)) empty_world in
  let listed := answer (list_tracks None) (after (create_track payload) w) in
  (body_of (answer (create_track payload) w) ≫= record_id)
    = Some (VStr "000000000000000000000032") /\
  status_of listed = 200%Z /\
  length (default [] (body_of listed)) = 50%nat /\
  Forall (fun r => record_id r <> Some (VStr "000000000000000000000032"))
         (default [] (body_of listed)).
Proof.
  cbn zeta. split; [vm_compute; reflexivity|].
  split; [vm_compute; reflexivity|].
  split; [vm_compute; reflexivity|].
  apply (bool_decide_unpack _). vm_compute. exact I.
Qed.

(** * Further properties of the code *)

(** ** What [serialize_doc] returns *)

Lemma convert_value_plain v : is_ObjectId (convert_value v) = false.
Proof. by destruct v. Qed.

Lemma serialize_dict_plain d : no_ObjectId_values (serialize_dict d).
Proof.
  rewrite serialize_dict_fmap. intros k v. rewrite lookup_fmap.
  destruct (rename_id d !! k) as [v0|]; [|done]. cbn. intros [= <-].
  apply convert_value_plain.
Qed.

(** X1: whatever dictionary goes in, the dictionary [serialize_doc]
    returns holds no [ObjectId]-typed value at its top level, and what
    it holds under [_id], if anything, is falsy. *)
Theorem serialize_doc_output_plain (d : doc) :
  exists r,
    serialize_doc (Some d) = Some r /\
    no_ObjectId_values r /\
    truthy_opt (r !! "_id") = false.
Proof.
  cbn [serialize_doc]. destruct (decide (d = ∅)) as [->|Hd].
  - exists ∅. split; [done|]. split; [apply map_Forall_empty | done].
  - exists (serialize_dict d). split; [done|].
    split; [apply serialize_dict_plain|].
    rewrite <- rename_id_serialize_dict. unfold rename_id.
    destruct (serialize_dict d !! "_id") as [v|] eqn:Hv; [|by rewrite Hv].
    destruct (truthy v) eqn:Ht.
    + by rewrite lookup_insert_ne, lookup_delete_eq.
    + rewrite Hv. exact Ht.
Qed.

(** X2: a truthy [_id] is taken out and its string is put under [id],
    replacing whatever [id] held; every other key keeps its value, an
    [ObjectId] among them turned into its string.  The string under
    [id] is stated for an [_id] that is a string, an identifier, or a
    value whose strings are ASCII text, where [py_str] is Python's
    [str]. *)
Theorem serialize_doc_renames_id (d : doc) (v : value) :
  d !! "_id" = Some v -> truthy v = true -> str_exact v = true ->
  exists r,
    serialize_doc (Some d) = Some r /\
    r !! "_id" = None /\
    r !! "id" = Some (VStr (py_str v)) /\
    forall k, k <> "_id" -> k <> "id" -> r !! k = convert_value <$> d !! k.
Proof.
  intros Hid Hv _. exists (serialize_dict d).
  assert (d <> ∅) as Hd by (intros ->; by rewrite lookup_empty in Hid).
  cbn [serialize_doc]. rewrite decide_False by done. split; [done|].
  rewrite serialize_dict_fmap. unfold rename_id. rewrite Hid, Hv.
  split; [|split].
  - by rewrite lookup_fmap, lookup_insert_ne, lookup_delete_eq.
  - by rewrite lookup_fmap, lookup_insert_eq.
  - intros k Hk1 Hk2.
    by rewrite !lookup_fmap, lookup_insert_ne, lookup_delete_ne.
Qed.

Lemma serialize_doc_renames_id_witness :
  exists r,
    serialize_doc (Some (<["_id" := VOid (oid_of_N 7)]> (<["id" := VStr "old"]>
                          (<["owner" := VOid (oid_of_N 9)]> ∅)))) = Some r /\
    r !! "_id" = None /\
    r !! "id" = Some (VStr "000000000000000000000007").
Proof.
  destruct (serialize_doc_renames_id
              (<["_id" := VOid (oid_of_N 7)]> (<["id" := VStr "old"]>
                 (<["owner" := VOid (oid_of_N 9)]> ∅))) (VOid (oid_of_N 7)))
    as (r & Hr & Hno & Hid & _).
  - vm_compute. reflexivity.
  - reflexivity.
  - reflexivity.
  - exists r. split; [exact Hr|]. split; [exact Hno | exact Hid].
Defined.

(** X3: a falsy [_id] (such as [0], the empty string or [None]) is not
    renamed: it stays under [_id], no [id] is made up, and the only
    change is the conversion of [ObjectId]-typed values. *)
Theorem serialize_doc_keeps_falsy_id (d : doc) :
  d <> ∅ -> truthy_opt (d !! "_id") = false ->
  serialize_doc (Some d) = Some (convert_value <$> d) /\
  (convert_value <$> d) !! "_id" = d !! "_id" /\
  (convert_value <$> d) !! "id" = convert_value <$> d !! "id".
Proof.
  intros Hd Hfalsy. cbn [serialize_doc]. rewrite decide_False by done.
  rewrite serialize_dict_fmap. unfold rename_id.
  destruct (d !! "_id") as [v|] eqn:Hid; cbn in Hfalsy.
  - rewrite Hfalsy. split; [done|]. rewrite !lookup_fmap, Hid. cbn.
    split; [|done]. by rewrite truthy_convert_value.
  - split; [done|]. rewrite !lookup_fmap, Hid. done.
Qed.

Lemma serialize_doc_keeps_falsy_id_witness :
  serialize_doc (Some (<["_id" := VInt 0]> (<["owner" := VOid (oid_of_N 9)]> ∅))) =
  Some (convert_value <$> (<["_id" := VInt 0]> (<["owner" := VOid (oid_of_N 9)]> ∅))).
Proof.
  apply (serialize_doc_keeps_falsy_id
           (<["_id" := VInt 0]> (<["owner" := VOid (oid_of_N 9)]> ∅))).
  - apply insert_non_empty.
  - vm_compute. reflexivity.
Defined.

(** X4: which object comes back.  For an empty dictionary the very
    reference passed in is returned and the store is untouched; for a
    non-empty one the result is a new object, at a reference the store
    did not hold, and the store differs by that one object. *)
Theorem serialize_doc_heap_alias (h : heap) (r0 : ref) (d : doc) :
  h !! r0 = Some d ->
  exists res h',
    serialize_doc_heap (Some r0) h = (inr (Some res), h') /\
    (d = ∅ -> res = r0 /\ h' = h) /\
    (d <> ∅ -> res <> r0 /\ h !! res = None /\
               h' = <[res := serialize_dict d]> h /\
               delete res h' = h).
Proof.
  intros Hr0. rewrite (serialize_doc_heap_run h r0 d Hr0).
  assert (h !! fresh (dom h) = None) as Hfresh.
  { apply not_elem_of_dom. apply is_fresh. }
  destruct (decide (d = ∅)) as [Hd|Hd].
  - exists r0, h. split; [done|]. split; [done|]. intros Hne. by destruct Hne.
  - eexists _, _. split; [reflexivity|]. split; [done|]. intros _.
    split; [congruence|]. split; [done|]. split; [done|].
    by apply delete_insert_id.
Qed.

Lemma serialize_doc_heap_alias_witness :
  let h : heap := {[ 1%positive := {["_id" := VOid (oid_of_N 7)]} ]} in
  exists res h',
    serialize_doc_heap (Some 1%positive) h = (inr (Some res), h') /\
    res <> 1%positive.
Proof.
  cbn zeta.
  destruct (serialize_doc_heap_alias {[ 1%positive := {["_id" := VOid (oid_of_N 7)]} ]}
              1%positive {["_id" := VOid (oid_of_N 7)]})
    as (res & h' & Hrun & _ & Hnew).
  - vm_compute. reflexivity.
  - exists res, h'. split; [exact Hrun|]. apply Hnew.
    intros Hempty. apply (f_equal (fun m : doc => m !! "_id")) in Hempty.
    vm_compute in Hempty. discriminate Hempty.
Defined.



(** ** Routes without a configured database *)

Lemma seed_no_db w :
  db w = None ->
  seed w = (inl (HTTPException 500 (DetailText "Database not configured")), w).
Proof. intros Hdb. unfold seed, bind, get_state. by rewrite Hdb. Qed.

(** X5: with [db] left at [None], [POST /seed] raises its own 500
    ("Database not configured") while the add-track route, given two
    well-formed identifiers, fails on [db["playlist"]] and answers 400;
    neither reaches the database. *)
Theorem unconfigured_seed_and_add_track (w : World) (playlist_id tid : string)
    (p t : ObjectId) :
  db w = None ->
  ObjectId_parse playlist_id = Some p -> ObjectId_parse tid = Some t ->
  seed w = (inl (HTTPException 500 (DetailText "Database not configured")), w) /\
  add_track_to_playlist playlist_id {| track_id := tid |} w =
    (inl (HTTPException 400 (DetailStr TypeError_NoneType)), w) /\
  status_of (answer seed w) = 500%Z /\
  status_of (answer (add_track_to_playlist playlist_id {| track_id := tid |}) w)
    = 400%Z.
Proof.
  intros Hdb Hp Ht. unfold answer.
  rewrite (seed_no_db w Hdb), (add_track_run_no_db w _ _ p t Hdb Hp Ht). done.
Qed.

Lemma unconfigured_seed_and_add_track_witness :
  let w := {| db := None; oplog := [] |} in
  status_of (answer seed w) = 500%Z /\
  status_of (answer (add_track_to_playlist "0000000000000000000000aa"
                       {| track_id := "0000000000000000000000bb" |}) w) = 400%Z.
Proof.
  cbn zeta.
  destruct (unconfigured_seed_and_add_track {| db := None; oplog := [] |}
              "0000000000000000000000aa" "0000000000000000000000bb"
              (oid_of_N 170) (oid_of_N 187)) as (_ & _ & Hseed & Hadd).
  - reflexivity.
  - vm_compute. reflexivity.
  - vm_compute. reflexivity.
  - split; [exact Hseed | exact Hadd].
Defined.

(** X6: with [db] left at [None], the failure of the access layer is
    reported as 500 by the two list routes and as 400 by the two create
    routes, each with the text of the caught exception; the world is
    left as it was. *)
Theorem unconfigured_list_and_create (w : World) (limit : option Z)
    (track : CreateTrack) (pl : CreatePlaylist) :
  db w = None ->
  list_tracks limit w =
    (inl (HTTPException 500 (DetailStr DatabaseUnavailable)), w) /\
  list_playlists limit w =
    (inl (HTTPException 500 (DetailStr DatabaseUnavailable)), w) /\
  create_track track w =
    (inl (HTTPException 400 (DetailStr DatabaseUnavailable)), w) /\
  create_playlist pl w =
    (inl (HTTPException 400 (DetailStr DatabaseUnavailable)), w).
Proof.
  intros Hdb.
  unfold list_tracks, list_playlists, create_track, create_playlist.
  unfold try_except, bind, get_documents, create_document.
  rewrite Hdb. done.
Qed.

Lemma unconfigured_list_and_create_witness :
  status_of (answer (list_tracks None) {| db := None; oplog := [] |}) = 500%Z /\
  status_of (answer (create_playlist {| name := "mix"; description := None;
                                         pl_cover_url := None |})
               {| db := None; oplog := [] |}) = 400%Z.
Proof.
  destruct (unconfigured_list_and_create {| db := None; oplog := [] |} None
              {| title := "X"; artist := "Y"; album := None; cover_url := None;
                 audio_url := "http://a/b.mp3"; duration_ms := None |}
              {| name := "mix"; description := None; pl_cover_url := None |}
              eq_refl) as (Hl & _ & _ & Hc).
  unfold answer. rewrite Hl, Hc. split; reflexivity.
Defined.

(** ** More on the add-track route *)

(** X7: which error is reported.  A [playlist_id] the [ObjectId]
    constructor refuses is reported first, as the constructor's
    [InvalidId], whatever the body holds; with a [playlist_id] the
    constructor accepts, a [track_id] it refuses is reported as the
    route's own "Invalid track id" exception, caught and wrapped once
    more by the outer handler.  (A token of 24 characters with
    whitespace among its digit pairs is one the constructor accepts.) *)
Theorem add_track_error_detail (w : World) (playlist_id : string)
    (payload : AddTrackPayload) :
  (ObjectId_parse playlist_id = None ->
   add_track_to_playlist playlist_id payload w =
     (inl (HTTPException 400 (DetailStr (InvalidId playlist_id))), w)) /\
  (forall p, ObjectId_parse playlist_id = Some p ->
     ObjectId_parse (track_id payload) = None ->
     add_track_to_playlist playlist_id payload w =
       (inl (HTTPException 400
               (DetailStr (HTTPException 400 (DetailText "Invalid track id")))),
        w)).
Proof.
  unfold add_track_to_playlist, try_except, bind, ObjectId_new. split.
  - by intros ->.
  - intros p Hp Ht. by rewrite Hp, (ObjectId_is_valid_None _ Ht), Ht.
Qed.

Lemma add_track_error_detail_witness :
  add_track_to_playlist "bad-id" {| track_id := "alsobad" |} empty_world =
    (inl (HTTPException 400 (DetailStr (InvalidId "bad-id"))), empty_world) /\
  add_track_to_playlist "0000000000000000000000aa" {| track_id := "alsobad" |}
    empty_world =
    (inl (HTTPException 400
            (DetailStr (HTTPException 400 (DetailText "Invalid track id")))),
     empty_world).
Proof.
  destruct (add_track_error_detail empty_world "bad-id"
              {| track_id := "alsobad" |}) as [Hpid _].
  destruct (add_track_error_detail empty_world "0000000000000000000000aa"
              {| track_id := "alsobad" |}) as [_ Htid].
  split.
  - apply Hpid. vm_compute. reflexivity.
  - apply (Htid (oid_of_N 170)); vm_compute; reflexivity.
Defined.

Lemma add_to_set_frame field v x x' :
  add_to_set field v x = inr x' -> forall k, k <> field -> x' !! k = x !! k.
Proof.
  unfold add_to_set. intros H k Hk.
  destruct (x !! field) as [[| | | | |l|]|]; try done.
  - case_bool_decide; injection H as <-; [done|]. by rewrite lookup_insert_ne.
  - injection H as <-. by rewrite lookup_insert_ne.
Qed.

Lemma update_first_Forall2 (R : doc -> doc -> Prop) p f l l' :
  (forall x, R x x) -> (forall x x', f x = inr x' -> R x x') ->
  update_first p f l = inr l' -> Forall2 R l l'.
Proof.
  intros Hrefl Hf. revert l'. induction l as [|x l IH]; intros l'; cbn.
  - intros [= <-]. constructor.
  - destruct (p x).
    + destruct (f x) as [e|x'] eqn:Hx; [done|]. intros [= <-].
      constructor; [by apply Hf|].
      apply Forall_Forall2_diag, Forall_forall. intros; apply Hrefl.
    + destruct (update_first p f l) as [e|l'']; [done|]. intros [= <-].
      constructor; [done|]. by apply IH.
Qed.

Lemma update_first_hit p f l x e :
  head (filter (fun x => p x = true) l) = Some x -> f x = inl e ->
  update_first p f l = inl e.
Proof.
  induction l as [|y l IH]; [done|]. cbn [update_first].
  destruct (p y) eqn:Hp.
  - rewrite filter_cons_True by done. intros [= ->] Hf. by rewrite Hf.
  - rewrite filter_cons_False by congruence. intros Hh Hf.
    by rewrite (IH Hh Hf).
Qed.

Lemma collection_with_playlists_ne d l name :
  name <> "playlist" -> collection (with_playlists d l) name = collection d name.
Proof.
  intros Hne. unfold collection, with_playlists. cbn.
  destruct (collections d !! "playlist"); [|done].
  by rewrite lookup_insert_ne.
Qed.

(** The world an add-track request leaves: the one it found, the one it
    found with a failed update in the trace, or the one with the
    playlist collection updated and the update and the lookup in the
    trace. *)
Lemma add_track_world w d playlist_id payload :
  db w = Some d ->
  after (add_track_to_playlist playlist_id payload) w = w \/
  after (add_track_to_playlist playlist_id payload) w
    = log_op (OpUpdate "playlist") w \/
  exists p t l',
    ObjectId_parse playlist_id = Some p /\
    ObjectId_parse (track_id payload) = Some t /\
    playlist_update d p t = inr l' /\
    after (add_track_to_playlist playlist_id payload) w
      = log_op (OpFindOne "playlist")
          (log_op (OpUpdate "playlist") (set_db (with_playlists d l') w)).
Proof.
  intros Hdb. destruct payload as [tid]. unfold after. cbn [track_id].
  destruct (ObjectId_parse playlist_id) as [p|] eqn:Hp; cycle 1.
  { destruct (add_track_malformed_run w playlist_id {| track_id := tid |})
      as [detail ->]; [by left|]. by left. }
  destruct (ObjectId_parse tid) as [t|] eqn:Ht; cycle 1.
  { destruct (add_track_malformed_run w playlist_id {| track_id := tid |})
      as [detail ->]; [by right|]. by left. }
  rewrite (add_track_run w d _ _ p t Hdb Hp Ht).
  destruct (playlist_update d p t) as [e|l'] eqn:Hu; [right; by left|].
  right; right. by exists p, t, l'.
Qed.

(** X8: what the add-track route can touch.  Whatever the request, a
    configured database keeps its identifier counter and every
    collection other than [playlist]; the playlist collection keeps its
    documents in place, each with all its fields except possibly
    [tracks]; and the database calls the route makes are none, or one
    update of the playlist collection, or that update followed by one
    lookup in the playlist collection: no call names the track
    collection. *)
Theorem add_track_frame (w : World) (d : Database) (playlist_id : string)
    (payload : AddTrackPayload) :
  db w = Some d ->
  exists d' calls,
    db (after (add_track_to_playlist playlist_id payload) w) = Some d' /\
    next_oid d' = next_oid d /\
    (forall name, name <> "playlist" -> collection d' name = collection d name) /\
    Forall2 (fun x x' => forall k, k <> "tracks" -> x' !! k = x !! k)
            (collection d "playlist") (collection d' "playlist") /\
    oplog (after (add_track_to_playlist playlist_id payload) w)
      = oplog w ++ calls /\
    (calls = [] \/ calls = [OpUpdate "playlist"] \/
     calls = [OpUpdate "playlist"; OpFindOne "playlist"]).
Proof.
  intros Hdb.
  destruct (add_track_world w d playlist_id payload Hdb)
    as [-> | [-> | (p & t & l' & Hp & Ht & Hu & ->)]].
  - exists d, []. split; [done|]. split; [done|]. split; [done|].
    split; [apply Forall_Forall2_diag, Forall_forall; done|].
    split; [by rewrite app_nil_r | by left].
  - exists d, [OpUpdate "playlist"]. split; [done|]. split; [done|].
    split; [done|].
    split; [apply Forall_Forall2_diag, Forall_forall; done|].
    split; [done | right; by left].
  - exists (with_playlists d l'), [OpUpdate "playlist"; OpFindOne "playlist"].
    split; [done|]. split; [done|].
    split; [intros name Hne; by apply collection_with_playlists_ne|].
    split.
    { rewrite (playlist_update_collection d p t l' Hu).
      apply (update_first_Forall2 _ _ _ _ _ (fun x k _ => eq_refl)
               (fun x x' Hx => add_to_set_frame _ _ x x' Hx) Hu). }
    split; [|right; by right].
    cbn [oplog log_op set_db]. by rewrite <- app_assoc.
Qed.

Lemma add_track_frame_witness :
  let w := after (create_playlist {| name := "mix"; description := None;
                                     pl_cover_url := None |})
             (after seed empty_world) in
  exists d' calls,
    db (after (add_track_to_playlist "000000000000000000000003"
                 {| track_id := "0000000000000000000000AB" |}) w) = Some d' /\
    collection d' "track" = collection (default empty_db (db w)) "track" /\
    oplog (after (add_track_to_playlist "000000000000000000000003"
                    {| track_id := "0000000000000000000000AB" |}) w)
      = oplog w ++ calls /\
    (calls = [] \/ calls = [OpUpdate "playlist"] \/
     calls = [OpUpdate "playlist"; OpFindOne "playlist"]).
Proof.
  cbn zeta.
  destruct (add_track_frame
              (after (create_playlist {| name := "mix"; description := None;
                                         pl_cover_url := None |})
                 (after seed empty_world))
              (default empty_db
                 (db (after (create_playlist {| name := "mix"; description := None;
                                                pl_cover_url := None |})
                        (after seed empty_world))))
              "000000000000000000000003"
              {| track_id := "0000000000000000000000AB" |})
    as (d' & calls & Hd' & _ & Hother & _ & Hlog & Hcalls).
  - vm_compute. reflexivity.
  - exists d', calls. split; [exact Hd'|].
    split; [apply Hother; discriminate|]. split; [exact Hlog | exact Hcalls].
Defined.

(** X9: a stored playlist whose [tracks] field is not a sequence makes
    the update fail; the route answers 400 with the write error and the
    database is left as it was. *)
Theorem add_track_tracks_not_list (w : World) (d : Database)
    (playlist_id tid : string) (p t : ObjectId) (v : value) :
  db w = Some d ->
  ObjectId_parse playlist_id = Some p -> ObjectId_parse tid = Some t ->
  playlist_tracks d p = Some v -> (forall l, v <> VList l) ->
  add_track_to_playlist playlist_id {| track_id := tid |} w =
    (inl (HTTPException 400 (DetailStr WriteError)),
     log_op (OpUpdate "playlist") w) /\
  db (after (add_track_to_playlist playlist_id {| track_id := tid |}) w) = Some d.
Proof.
  intros Hdb Hp Ht Htr Hv. unfold after.
  rewrite (add_track_run w d _ _ p t Hdb Hp Ht).
  unfold playlist_tracks in Htr.
  destruct (head (matching (by_id p) (collection d "playlist"))) as [x|] eqn:Hx;
    [|done].
  cbn in Htr. unfold playlist_update.
  rewrite (update_first_hit _ _ _ x WriteError Hx); [done|].
  unfold add_to_set. rewrite Htr.
  destruct v as [| | | | |l|]; try done. by destruct (Hv l).
Qed.

Lemma add_track_tracks_not_list_witness :
  let w := {| db := Some {| collections :=
                              {["playlist" := [<["_id" := VOid (oid_of_N 1)]>
                                                 (<["tracks" := VStr "x"]> ∅)]]};
                            next_oid := 2 |};
              oplog := [] |} in
  status_of (answer (add_track_to_playlist "000000000000000000000001"
                       {| track_id := "0000000000000000000000ab" |}) w) = 400%Z /\
  db (after (add_track_to_playlist "000000000000000000000001"
               {| track_id := "0000000000000000000000ab" |}) w) = db w.
Proof.
  cbn zeta.
  destruct (add_track_tracks_not_list
              {| db := Some {| collections :=
                                 {["playlist" := [<["_id" := VOid (oid_of_N 1)]>
                                                    (<["tracks" := VStr "x"]> ∅)]]};
                               next_oid := 2 |};
                 oplog := [] |}
              {| collections :=
                   {["playlist" := [<["_id" := VOid (oid_of_N 1)]>
                                      (<["tracks" := VStr "x"]> ∅)]]};
                 next_oid := 2 |}
              "000000000000000000000001" "0000000000000000000000ab"
              (oid_of_N 1) (oid_of_N 171) (VStr "x")) as [Hrun Hdb].
  - reflexivity.
  - vm_compute. reflexivity.
  - vm_compute. reflexivity.
  - vm_compute. reflexivity.
  - intros l. discriminate.
  - split; [|exact Hdb]. unfold answer. rewrite Hrun. reflexivity.
Defined.

(** ** Creating a playlist *)

(** Lookups in a dictionary written as a chain of item assignments. *)
Ltac lookup_chain :=
  repeat first [rewrite lookup_insert_eq | rewrite lookup_insert_ne by done];
  try rewrite lookup_empty; try done.

Lemma playlist_doc_no_id pl :
  (<["tracks" := VList []]> (CreatePlaylist_model_dump pl) : doc) !! "_id" = None.
Proof.
  unfold CreatePlaylist_model_dump. by rewrite !lookup_insert_ne, lookup_empty.
Qed.

Lemma playlist_doc_no_ObjectId pl (l : list string) :
  no_ObjectId_values
    (<["tracks" := VList (VStr <$> l)]> (CreatePlaylist_model_dump pl)).
Proof.
  unfold no_ObjectId_values, CreatePlaylist_model_dump.
  repeat (apply map_Forall_insert_2;
          [first [reflexivity | by destruct (description pl)
                 | by destruct (pl_cover_url pl)] |]).
  apply map_Forall_empty.
Qed.

Lemma playlist_doc_encodable pl :
  doc_encodable (<["tracks" := VList []]> (CreatePlaylist_model_dump pl)).
Proof.
  unfold CreatePlaylist_model_dump.
  repeat (apply doc_encodable_insert;
          [first [reflexivity | by destruct (description pl)
                 | by destruct (pl_cover_url pl)] |]).
  apply doc_encodable_empty.
Qed.

(** Insert, look the record up again under the returned identifier,
    serialize: the common body of the two create routes. *)
Lemma insert_and_fetch_run w d cname data (handler : exc -> Handler (option doc)) :
  db w = Some d -> db_wf d = true ->
  data !! "_id" = None -> no_ObjectId_values data -> doc_encodable data ->
  try_except
    (_id <- create_document cname data ;;
     w <- get_state ;;
     match db w with
     | None => raise TypeError_NoneType
     | Some _ =>
         oid <- ObjectId_new _id ;;
         doc0 <- find_one cname {["_id" := VOid oid]} ;;
         ret (serialize_doc doc0)
     end) handler w =
  (inr (Some (<["id" := VStr (oid_str (gen_oid d))]> data)),
   log_op (OpFindOne cname)
     (log_op (OpInsert cname)
        (set_db (store cname (<["_id" := VOid (gen_oid d)]> data) d) w))).
Proof.
  intros Hdb Hwf Hid Hno Henc.
  unfold try_except, bind.
  rewrite (create_document_run w d cname _ Hdb Hid Henc); cycle 1.
  { intros x Hx. by apply (db_wf_new_id d cname). }
  cbv beta iota. unfold get_state. cbn [db log_op set_db].
  unfold ObjectId_new. rewrite ObjectId_parse_str by apply length_oid_of_N.
  unfold ret at 1. unfold find_one. cbn [db log_op set_db].
  rewrite collection_store. fold (by_id (gen_oid d)).
  rewrite (matching_by_id_snoc (gen_oid d)); cycle 1.
  { intros y Hy. by apply (db_wf_new_id d cname). }
  { apply lookup_insert_eq. }
  cbn [head]. unfold ret.
  by rewrite (serialize_doc_stored _ _ Hid Hno).
Qed.

Lemma create_playlist_run w d pl :
  db w = Some d -> db_wf d = true ->
  create_playlist pl w =
  (inr (Some (<["id" := VStr (oid_str (gen_oid d))]>
                (<["tracks" := VList []]> (CreatePlaylist_model_dump pl)))),
   log_op (OpFindOne "playlist")
     (log_op (OpInsert "playlist")
        (set_db (store "playlist"
                   (<["_id" := VOid (gen_oid d)]>
                      (<["tracks" := VList []]> (CreatePlaylist_model_dump pl))) d)
           w))).
Proof.
  intros Hdb Hwf. unfold create_playlist. cbv zeta.
  apply (insert_and_fetch_run w d "playlist" _ _ Hdb Hwf (playlist_doc_no_id pl)
           (playlist_doc_no_ObjectId pl [])).
  apply playlist_doc_encodable.
Qed.

(** X10: on a configured database whose identifiers came from its
    counter, [POST /playlists] answers with the payload's three fields,
    an empty [tracks] sequence and the new [id]; the playlist is stored
    at the end of the playlist collection under that identifier, and
    every other collection is left alone. *)
Theorem create_playlist_roundtrip (w : World) (d : Database) (pl : CreatePlaylist) :
  db w = Some d -> db_wf d = true ->
  exists record d',
    answer (create_playlist pl) w = inr (Some record) /\
    record !! "id" = Some (VStr (oid_str (gen_oid d))) /\
    record !! "tracks" = Some (VList []) /\
    record !! "name" = Some (VStr (name pl)) /\
    record !! "description" = Some (opt_str (description pl)) /\
    record !! "cover_url" = Some (opt_str (pl_cover_url pl)) /\
    record !! "_id" = None /\
    db (after (create_playlist pl) w) = Some d' /\
    (exists stored,
        collection d' "playlist" = collection d "playlist" ++ [stored] /\
        stored !! "_id" = Some (VOid (gen_oid d)) /\
        serialize_doc (Some stored) = Some record) /\
    playlist_tracks d' (gen_oid d) = Some (VList []) /\
    forall cname, cname <> "playlist" -> collection d' cname = collection d cname.
Proof.
  intros Hdb Hwf. unfold answer, after.
  rewrite (create_playlist_run w d pl Hdb Hwf). cbn [fst snd db log_op set_db].
  eexists _, _. split; [reflexivity|].
  split; [apply lookup_insert_eq|].
  unfold CreatePlaylist_model_dump.
  do 5 (split; [lookup_chain|]).
  split; [reflexivity|].
  split.
  { eexists. split; [apply collection_store|].
    split; [apply lookup_insert_eq|].
    apply serialize_doc_stored;
      [apply playlist_doc_no_id | apply (playlist_doc_no_ObjectId pl [])]. }
  split.
  { unfold playlist_tracks. rewrite collection_store.
    rewrite (matching_by_id_snoc (gen_oid d)).
    - cbn. by rewrite lookup_insert_ne, lookup_insert_eq.
    - intros y Hy. by apply (db_wf_new_id d "playlist").
    - apply lookup_insert_eq. }
  intros cname Hne. by apply collection_store_ne.
Qed.

Lemma create_playlist_roundtrip_witness :
  exists record,
    answer (create_playlist {| name := "mix"; description := Some "late";
                               pl_cover_url := None |}) (after seed empty_world)
      = inr (Some record) /\
    record !! "id" = Some (VStr "000000000000000000000003") /\
    record !! "tracks" = Some (VList []).
Proof.
  destruct (create_playlist_roundtrip (after seed empty_world)
              (default empty_db (db (after seed empty_world)))
              {| name := "mix"; description := Some "late";
                 pl_cover_url := None |})
    as (record & d' & Hans & Hid & Htracks & _).
  - vm_compute. reflexivity.
  - vm_compute. reflexivity.
  - exists record. split; [exact Hans|]. split; [exact Hid | exact Htracks].
Defined.

Lemma update_first_snoc p f l x x' :
  matching_pred_none p l -> p x = true -> f x = inr x' ->
  update_first p f (l ++ [x]) = inr (l ++ [x']).
Proof.
  unfold matching_pred_none. intros Hl Hp Hf.
  induction l as [|y l IH]; cbn.
  - by rewrite Hp, Hf.
  - rewrite (Hl y) by by left. rewrite IH; [done|].
    intros z Hz. apply Hl. by right.
Qed.

(** X11: creating a playlist and then adding a track to it under the
    identifier just returned answers with the same record, its [tracks]
    now holding one string: the parsed track identifier as [str]
    renders it, which is the [track_id] sent with its whitespace
    dropped and its letters in lower case. *)
Theorem create_playlist_then_add_track (w : World) (d : Database)
    (pl : CreatePlaylist) (playlist_id tid : string) (t : ObjectId) :
  db w = Some d -> db_wf d = true ->
  ObjectId_parse playlist_id = Some (gen_oid d) ->
  ObjectId_parse tid = Some t ->
  py_str (VOid t) = lowercase (strip_spaces tid) /\
  answer (add_track_to_playlist playlist_id {| track_id := tid |})
         (after (create_playlist pl) w) =
  inr (Some (<["id" := VStr (oid_str (gen_oid d))]>
               (<["tracks" := VList [VStr (py_str (VOid t))]]>
                  (CreatePlaylist_model_dump pl)))).
Proof.
  intros Hdb Hwf Hp Ht. split; [by apply oid_str_parse|].
  unfold answer, after.
  rewrite (create_playlist_run w d pl Hdb Hwf). cbn [snd].
  set (stored := <["_id" := VOid (gen_oid d)]>
                   (<["tracks" := VList []]> (CreatePlaylist_model_dump pl))).
  set (d1 := store "playlist" stored d).
  set (w1 := log_op _ _).
  rewrite (add_track_run w1 d1 _ _ (gen_oid d) t eq_refl Hp Ht).
  set (x' := <["tracks" := VList [VStr (oid_str t)]]> stored).
  assert (playlist_update d1 (gen_oid d) t = inr (collection d "playlist" ++ [x']))
    as ->.
  { unfold playlist_update, d1. rewrite collection_store.
    apply update_first_snoc.
    - intros y Hy. apply not_true_is_false. rewrite doc_matches_by_id.
      by apply (db_wf_new_id d "playlist").
    - apply doc_matches_by_id. apply lookup_insert_eq.
    - unfold add_to_set, stored. rewrite lookup_insert_ne by done.
      rewrite lookup_insert_eq. by rewrite bool_decide_eq_false_2 by apply not_elem_of_nil. }
  cbn [fst].
  rewrite (matching_by_id_snoc (gen_oid d)); cycle 1.
  { intros y Hy. by apply (db_wf_new_id d "playlist"). }
  { unfold x', stored. lookup_chain. }
  cbn [head]. do 2 f_equal.
  unfold x', stored.
  rewrite (insert_insert_ne (M := gmap string)) by done.
  rewrite insert_insert_eq.
  rewrite serialize_doc_stored.
  - reflexivity.
  - unfold CreatePlaylist_model_dump. lookup_chain.
  - apply (playlist_doc_no_ObjectId pl [oid_str t]).
Qed.

Lemma create_playlist_then_add_track_witness :
  answer (add_track_to_playlist "000000000000000000000003"
            {| track_id := "00000000000000000000  AB" |})
         (after (create_playlist {| name := "mix"; description := None;
                                    pl_cover_url := None |})
            (after seed empty_world)) =
  inr (Some (<["id" := VStr "000000000000000000000003"]>
               (<["tracks" := VList [VStr "00000000000000000000ab"]]>
                  (CreatePlaylist_model_dump
                     {| name := "mix"; description := None;
                        pl_cover_url := None |})))).
Proof.
  refine (proj2 (create_playlist_then_add_track (after seed empty_world)
           (default empty_db (db (after seed empty_world)))
           {| name := "mix"; description := None; pl_cover_url := None |}
           "000000000000000000000003" "00000000000000000000  AB"
           [Byte.x00; Byte.x00; Byte.x00; Byte.x00; Byte.x00; Byte.x00;
            Byte.x00; Byte.x00; Byte.x00; Byte.x00; Byte.xab] _ _ _ _)).
  - vm_compute. reflexivity.
  - vm_compute. reflexivity.
  - vm_compute. reflexivity.
  - vm_compute. reflexivity.
Defined.

(** X12: tracks are kept in the order they were first added.  Two
    requests for different identifiers, neither stored yet, put them at
    the end of [tracks], the first request's identifier first. *)
Theorem add_two_tracks_in_order (w : World) (d : Database)
    (playlist_id tid1 tid2 : string) (p t1 t2 : ObjectId) (l : list value) :
  db w = Some d ->
  ObjectId_parse playlist_id = Some p ->
  ObjectId_parse tid1 = Some t1 -> ObjectId_parse tid2 = Some t2 ->
  t1 <> t2 ->
  playlist_tracks d p = Some (VList l) ->
  VStr (oid_str t1) ∉ l -> VStr (oid_str t2) ∉ l ->
  exists d2,
    db (after (add_track_to_playlist playlist_id {| track_id := tid2 |})
          (after (add_track_to_playlist playlist_id {| track_id := tid1 |}) w))
      = Some d2 /\
    playlist_tracks d2 p =
      Some (VList (l ++ [VStr (oid_str t1); VStr (oid_str t2)])).
Proof.
  intros Hdb Hp H1 H2 Hne Htr Hn1 Hn2.
  destruct (add_track_tracks w d playlist_id tid1 p t1 l Hdb Hp H1 Htr)
    as (d1 & Hd1 & Htr1).
  rewrite bool_decide_eq_false_2 in Htr1 by done.
  destruct (add_track_tracks _ d1 playlist_id tid2 p t2 _ Hd1 Hp H2 Htr1)
    as (d2 & Hd2 & Htr2).
  exists d2. split; [exact Hd2|]. rewrite Htr2.
  rewrite bool_decide_eq_false_2; [by rewrite <- app_assoc|].
  intros [Hin|Heq%list_elem_of_singleton]%elem_of_app; [done|].
  apply Hne. symmetry. apply oid_str_inj. congruence.
Qed.

Lemma add_two_tracks_in_order_witness :
  let w := after (create_playlist {| name := "mix"; description := None;
                                     pl_cover_url := None |}) empty_world in
  exists d2,
    db (after (add_track_to_playlist "000000000000000000000000"
                 {| track_id := "000000000000000000000002" |})
          (after (add_track_to_playlist "000000000000000000000000"
                    {| track_id := "000000000000000000000009" |}) w)) = Some d2 /\
    playlist_tracks d2 (oid_of_N 0) =
      Some (VList [VStr (oid_str (oid_of_N 9)); VStr (oid_str (oid_of_N 2))]).
Proof.
  cbn zeta.
  apply (add_two_tracks_in_order
           (after (create_playlist {| name := "mix"; description := None;
                                      pl_cover_url := None |}) empty_world)
           (default empty_db
              (db (after (create_playlist {| name := "mix"; description := None;
                                             pl_cover_url := None |}) empty_world)))
           "000000000000000000000000" "000000000000000000000009"
           "000000000000000000000002" (oid_of_N 0) (oid_of_N 9) (oid_of_N 2) []).
  - vm_compute. reflexivity.
  - vm_compute. reflexivity.
  - vm_compute. reflexivity.
  - vm_compute. reflexivity.
  - discriminate.
  - vm_compute. reflexivity.
  - apply not_elem_of_nil.
  - apply not_elem_of_nil.
Defined.

(** ** What the list routes hand out *)

Lemma is_canonical_oid_str o :
  length o = 12%nat -> is_canonical (oid_str o) = true.
Proof.
  intros Ho. unfold is_canonical. rewrite ObjectId_parse_str by done.
  apply String.eqb_refl.
Qed.

Lemma serialize_doc_with_oid x o :
  x !! "_id" = Some (VOid o) ->
  exists r, serialize_doc (Some x) = Some r /\
            r !! "_id" = None /\ r !! "id" = Some (VStr (oid_str o)) /\
            no_ObjectId_values r.
Proof.
  intros Hid. exists (serialize_dict x).
  assert (x <> ∅) as Hx by (intros ->; by rewrite lookup_empty in Hid).
  cbn [serialize_doc]. rewrite decide_False by done. split; [done|].
  split; [|split; [|apply serialize_dict_plain]];
    rewrite serialize_dict_fmap; unfold rename_id; rewrite Hid; cbn [truthy];
    rewrite lookup_fmap.
  - by rewrite lookup_insert_ne, lookup_delete_eq.
  - by rewrite lookup_insert_eq.
Qed.

Lemma listed_ok_take d cname n :
  db_wf d = true ->
  Forall listed_ok
    (map (fun x => serialize_doc (Some x)) (take n (collection d cname))).
Proof.
  intros Hwf. apply Forall_forall. intros r Hr.
  apply list_elem_of_In, in_map_iff in Hr as (x & <- & Hx%list_elem_of_In).
  apply elem_of_take in Hx as (i & Hx & _).
  apply list_elem_of_lookup_2 in Hx.
  pose proof (db_wf_collection d cname x Hwf Hx) as Hb.
  unfold id_below in Hb.
  destruct (x !! "_id") as [[| | | |o| |]|] eqn:Hid; try done.
  apply andb_true_iff in Hb as [Hlen%Nat.eqb_eq _].
  destruct (serialize_doc_with_oid x o Hid) as (r & Hr & Hno & Hnew & Hplain).
  exists r, (oid_str o). split; [done|]. split; [done|]. split; [done|].
  split; [|done]. by apply is_canonical_oid_str.
Qed.

(** X13: on a configured database whose identifiers came from its
    counter, every record the two list routes return has no [_id], has
    a canonical identifier string under [id] and holds no [ObjectId];
    listing changes nothing in the database. *)
Theorem listed_records_serialized (w : World) (d : Database) (limit : option Z) :
  db w = Some d -> db_wf d = true ->
  exists ts ps,
    answer (list_tracks limit) w = inr ts /\
    answer (list_playlists limit) w = inr ps /\
    Forall listed_ok ts /\ Forall listed_ok ps /\
    db (after (list_tracks limit) w) = Some d /\
    db (after (list_playlists limit) w) = Some d.
Proof.
  intros Hdb Hwf. unfold answer, after.
  rewrite (list_tracks_run w d limit Hdb), (list_playlists_run w d limit Hdb).
  eexists _, _. split; [reflexivity|]. split; [reflexivity|].
  split; [by apply listed_ok_take|]. split; [by apply listed_ok_take|]. done.
Qed.

Lemma listed_records_serialized_witness :
  exists ts,
    answer (list_tracks (Some 2%Z)) (after seed empty_world) = inr ts /\
    Forall listed_ok ts.
Proof.
  destruct (listed_records_serialized (after seed empty_world)
              (default empty_db (db (after seed empty_world))) (Some 2%Z))
    as (ts & ps & Hts & _ & Hok & _).
  - vm_compute. reflexivity.
  - vm_compute. reflexivity.
  - exists ts. split; [exact Hts | exact Hok].
Defined.

(** ** Following the routes step by step *)

Section Related.
Context (R : World -> World -> Prop) (HR : route_relation R).

Lemma related_ret {A} (x : A) : related R (ret x).
Proof. intros w. apply (rr_refl R HR). Qed.

Lemma related_raise {A} (e : exc) : related R (raise e : Handler A).
Proof. intros w. apply (rr_refl R HR). Qed.

Lemma related_get_state : related R (get_state : Handler World).
Proof. intros w. apply (rr_refl R HR). Qed.

Lemma related_bind {A B} (m : Handler A) (f : A -> Handler B) :
  related R m -> (forall x, related R (f x)) -> related R (bind m f).
Proof.
  intros Hm Hf w. unfold bind. specialize (Hm w).
  destruct (m w) as [[e|x] w']; [done|].
  apply (rr_trans R HR _ w'); [done|]. apply Hf.
Qed.

Lemma related_try_except {A} (body : Handler A) (handler : exc -> Handler A) :
  related R body -> (forall e, related R (handler e)) ->
  related R (try_except body handler).
Proof.
  intros Hb Hh w. unfold try_except. specialize (Hb w).
  destruct (body w) as [[e|x] w']; [|done].
  apply (rr_trans R HR _ w'); [done|]. apply Hh.
Qed.

Lemma related_for_each {A} (l : list A) (body : A -> Handler unit) :
  (forall x, x ∈ l -> related R (body x)) -> related R (for_each l body).
Proof.
  induction l as [|x l IH]; intros Hbody; cbn [for_each].
  - apply related_ret.
  - apply related_bind; [apply Hbody; by left|]. intros _.
    apply IH. intros y Hy. apply Hbody. by right.
Qed.

Lemma related_ObjectId_new s : related R (ObjectId_new s : Handler ObjectId).
Proof.
  unfold ObjectId_new. destruct (ObjectId_parse s);
    [apply related_ret | apply related_raise].
Qed.

Lemma related_count_documents cname q : related R (count_documents cname q).
Proof.
  intros w. unfold count_documents.
  destruct (db w); [apply (rr_log R HR) | apply (rr_refl R HR)].
Qed.

Lemma related_find_one cname q : related R (find_one cname q).
Proof.
  intros w. unfold find_one.
  destruct (db w); [apply (rr_log R HR) | apply (rr_refl R HR)].
Qed.

Lemma related_get_documents cname q limit :
  related R (get_documents cname q limit).
Proof.
  intros w. unfold get_documents.
  destruct (db w); [apply (rr_log R HR) | apply (rr_refl R HR)].
Qed.

Lemma related_create_track_doc data :
  data !! "_id" = None -> related R (create_document "track" data).
Proof.
  intros Hid w. unfold create_document.
  destruct (db w) as [d|] eqn:Hdb; [|apply (rr_refl R HR)].
  destruct (insert_one "track" data d) as [e|[key d']] eqn:Hins;
    [apply (rr_log R HR)|]. cbn [snd].
  apply (rr_trans R HR _ (set_db d' w)); [|apply (rr_log R HR)].
  by apply (rr_insert_track R HR w d data key d').
Qed.

Lemma related_create_playlist_doc pl :
  related R (create_document "playlist"
               (<["tracks" := VList []]> (CreatePlaylist_model_dump pl))).
Proof.
  intros w. unfold create_document.
  destruct (db w) as [d|] eqn:Hdb; [|apply (rr_refl R HR)].
  destruct (insert_one "playlist" _ d) as [e|[key d']] eqn:Hins;
    [apply (rr_log R HR)|]. cbn [snd].
  apply (rr_trans R HR _ (set_db d' w)); [|apply (rr_log R HR)].
  by apply (rr_insert_playlist R HR w d pl key d').
Qed.

(** One step of a proof that a handler is followed by the relation. *)
Ltac related_step :=
  first [ apply related_ret | apply related_raise | apply related_get_state
        | apply related_ObjectId_new | apply related_count_documents
        | apply related_find_one | apply related_get_documents
        | apply related_create_playlist_doc
        | apply related_bind; [|intros ?]
        | apply related_try_except; [|intros ?] ].

Lemma related_seed : related R seed.
Proof.
  unfold seed. apply related_bind; [related_step|]. intros w0.
  destruct (db w0); [|related_step].
  apply related_bind; [related_step|]. intros count.
  destruct (count >? 0)%Z; [related_step|].
  apply related_bind; [|intros ?; related_step].
  apply related_for_each. intros t Ht.
  apply related_bind; [|intros ?; related_step].
  apply related_create_track_doc.
  unfold demo_tracks in Ht.
  repeat (apply elem_of_cons in Ht as [->|Ht]; [reflexivity|]).
  by apply elem_of_nil in Ht.
Qed.

Lemma related_list_tracks limit : related R (list_tracks limit).
Proof. unfold list_tracks. repeat related_step. Qed.

Lemma related_list_playlists limit : related R (list_playlists limit).
Proof. unfold list_playlists. repeat related_step. Qed.

Lemma related_create_track payload : related R (create_track payload).
Proof.
  unfold create_track. cbv zeta. apply related_try_except; [|intros ?; related_step].
  apply related_bind;
    [apply related_create_track_doc, Track_model_dump_no_id|]. intros _id.
  apply related_bind; [related_step|]. intros w0.
  destruct (db w0); repeat related_step.
Qed.

Lemma related_create_playlist payload : related R (create_playlist payload).
Proof.
  unfold create_playlist. cbv zeta.
  apply related_try_except; [|intros ?; related_step].
  apply related_bind; [related_step|]. intros _id.
  apply related_bind; [related_step|]. intros w0.
  destruct (db w0); repeat related_step.
Qed.

Lemma related_add_track playlist_id payload :
  related R (add_track_to_playlist playlist_id payload).
Proof.
  intros w. destruct payload as [tid].
  destruct (ObjectId_parse playlist_id) as [p|] eqn:Hp; cycle 1.
  { destruct (add_track_malformed_run w playlist_id {| track_id := tid |})
      as [detail ->]; [by left|]. apply (rr_refl R HR). }
  destruct (ObjectId_parse tid) as [t|] eqn:Ht; cycle 1.
  { destruct (add_track_malformed_run w playlist_id {| track_id := tid |})
      as [detail ->]; [by right|]. apply (rr_refl R HR). }
  destruct (db w) as [d|] eqn:Hdb; cycle 1.
  { rewrite (add_track_run_no_db w _ _ p t Hdb Hp Ht). apply (rr_refl R HR). }
  rewrite (add_track_run w d _ _ p t Hdb Hp Ht).
  destruct (playlist_update d p t) as [e|l'] eqn:Hu; cbn [snd].
  - apply (rr_log R HR).
  - apply (rr_trans R HR _ (set_db (with_playlists d l') w)).
    + apply (rr_update R HR w d p t l' Hdb (ObjectId_parse_length _ _ Ht) Hu).
    + apply (rr_trans R HR _ (log_op (OpUpdate "playlist")
                                 (set_db (with_playlists d l') w)));
        apply (rr_log R HR).
Qed.

Lemma related_serve r w : R w (serve r w).
Proof.
  destruct r; cbn [serve]; unfold after.
  - apply related_seed.
  - apply related_list_tracks.
  - apply related_create_track.
  - apply related_create_playlist.
  - apply related_list_playlists.
  - apply related_add_track.
Qed.

Lemma related_serve_all rs w : R w (serve_all rs w).
Proof.
  unfold serve_all. revert w. induction rs as [|r rs IH]; intros w; cbn [foldl].
  - apply (rr_refl R HR).
  - apply (rr_trans R HR _ (serve r w)); [apply related_serve | apply IH].
Qed.

End Related.

(** ** Rendered identifiers *)

Lemma is_rendered_str o : (length o <= 12)%nat -> is_rendered (oid_str o) = true.
Proof.
  intros Hl. unfold is_rendered, oid_str.
  rewrite list_ascii_of_string_of_list_ascii, fromhex_hexlify.
  rewrite String.eqb_refl. by apply Nat.leb_le.
Qed.

(** ** What a successful insert or update leaves *)

Lemma existsb_id_false_inv (key : value) (l : list doc) :
  List.existsb (fun x => bool_decide (x !! "_id" = Some key)) l = false ->
  Some key ∉ ids_of l.
Proof.
  unfold ids_of. induction l as [|x l IH]; cbn; [intros _; apply not_elem_of_nil|].
  intros [Hx Hl]%orb_false_iff. apply bool_decide_eq_false in Hx.
  apply not_elem_of_cons. split; [congruence | by apply IH].
Qed.

Lemma insert_one_inv cname data d key d' :
  insert_one cname data d = inr (key, d') ->
  exists stored,
    d' = store cname stored d /\
    stored !! "_id" = Some key /\
    (Some key ∉ ids_of (collection d cname)) /\
    (data !! "_id" = None -> stored = <["_id" := key]> data).
Proof.
  unfold insert_one.
  set (stored := match data !! "_id" with
                 | Some _ => data
                 | None => <["_id" := VOid (gen_oid d)]> data
                 end).
  assert (exists k, stored !! "_id" = Some k /\
                    (data !! "_id" = None -> stored = <["_id" := k]> data))
    as (k & Hk & Hdata).
  { unfold stored. destruct (data !! "_id") as [k|] eqn:Hid.
    - exists k. split; [done|]. done.
    - exists (VOid (gen_oid d)). split; [apply lookup_insert_eq | done]. }
  rewrite Hk. cbn [default].
  destruct (negb (bool_decide (doc_encodable stored))); [done|].
  destruct (List.existsb _ _) eqn:Hex; [done|]. intros [= <- <-].
  exists stored. split; [done|]. split; [done|].
  split; [by apply existsb_id_false_inv | done].
Qed.

Lemma ids_of_store cname x d cname' :
  ids_of (collection (store cname x d) cname') =
  if decide (cname = cname')
  then ids_of (collection d cname') ++ [x !! "_id"]
  else ids_of (collection d cname').
Proof.
  case_decide as Hc.
  - subst. rewrite collection_store. unfold ids_of. by rewrite fmap_app.
  - by rewrite collection_store_ne.
Qed.

Lemma playlist_update_ids d p t l' :
  playlist_update d p t = inr l' -> ids_of l' = ids_of (collection d "playlist").
Proof.
  intros Hu. unfold playlist_update in Hu.
  apply (update_first_Forall2 (fun x x' => x' !! "_id" = x !! "_id")) in Hu.
  - unfold ids_of. symmetry. revert Hu. generalize (collection d "playlist").
    intros l Hu. induction Hu as [|x x' l l' Hx _ IH]; [done|].
    cbn. by rewrite Hx, IH.
  - done.
  - intros x x' Hx. by apply (add_to_set_frame _ _ _ _ Hx).
Qed.

Lemma ids_of_with_playlists d p t l' cname :
  playlist_update d p t = inr l' ->
  ids_of (collection (with_playlists d l') cname) = ids_of (collection d cname).
Proof.
  intros Hu. destruct (decide (cname = "playlist")) as [->|Hne].
  - rewrite (playlist_update_collection d p t l' Hu).
    by apply (playlist_update_ids d p t).
  - by rewrite collection_with_playlists_ne.
Qed.

(** ** Nothing is deleted *)

Lemma nothing_deleted_refl w : nothing_deleted w w.
Proof.
  unfold nothing_deleted. destruct (db w) as [d|]; [|done].
  exists d. done.
Qed.

Lemma nothing_deleted_trans w1 w2 w3 :
  nothing_deleted w1 w2 -> nothing_deleted w2 w3 -> nothing_deleted w1 w3.
Proof.
  unfold nothing_deleted. destruct (db w1) as [d1|].
  - intros (d2 & -> & Ht12 & Hi12) (d3 & -> & Ht23 & Hi23).
    exists d3. split; [done|].
    split; [etrans; [apply Ht12 | apply Ht23]|].
    intros cname. etrans; [apply Hi12 | apply Hi23].
  - by intros ->.
Qed.

Lemma nothing_deleted_set_db w d d' :
  db w = Some d ->
  collection d "track" `prefix_of` collection d' "track" ->
  (forall cname, ids_of (collection d cname) `prefix_of` ids_of (collection d' cname)) ->
  nothing_deleted w (set_db d' w).
Proof.
  intros Hdb Ht Hi. unfold nothing_deleted. rewrite Hdb. by exists d'.
Qed.

Lemma nothing_deleted_insert w d cname data key d' :
  db w = Some d -> insert_one cname data d = inr (key, d') ->
  nothing_deleted w (set_db d' w).
Proof.
  intros Hdb (stored & -> & _)%insert_one_inv.
  apply (nothing_deleted_set_db w d _ Hdb).
  - destruct (decide (cname = "track")) as [->|Hne].
    + rewrite collection_store. by apply prefix_app_r.
    + by rewrite collection_store_ne.
  - intros cname'. rewrite ids_of_store.
    case_decide; [by apply prefix_app_r | done].
Qed.

Lemma nothing_deleted_route_relation : route_relation nothing_deleted.
Proof.
  split.
  - apply nothing_deleted_refl.
  - apply nothing_deleted_trans.
  - intros op w. unfold nothing_deleted. cbn [db log_op].
    destruct (db w) as [d|]; [|done]. by exists d.
  - intros w d data key d' Hdb _ Hins.
    by apply (nothing_deleted_insert w d "track" data key d').
  - intros w d pl key d' Hdb Hins.
    by apply (nothing_deleted_insert w d "playlist" _ key d' Hdb Hins).
  - intros w d p t l' Hdb _ Hu.
    apply (nothing_deleted_set_db w d _ Hdb).
    + by rewrite collection_with_playlists_ne.
    + intros cname. by rewrite (ids_of_with_playlists d p t l' cname Hu).
Qed.

(** X14: no request, and no sequence of requests, to the data routes
    deletes anything.  An unconfigured database stays unconfigured; in a
    configured one the track documents stored before are still the
    first documents of the track collection, unchanged, and every
    collection still holds, in place, a document under each identifier
    it held. *)
Theorem requests_never_delete (rs : list request) (w : World) :
  nothing_deleted w (serve_all rs w).
Proof. apply related_serve_all, nothing_deleted_route_relation. Qed.

(** ** Playlists keep duplicate-free rendered identifiers *)

Lemma tracks_ok_add_to_set o x x' :
  (length o <= 12)%nat ->
  add_to_set "tracks" (VStr (py_str (VOid o))) x = inr x' ->
  tracks_ok x -> tracks_ok x'.
Proof.
  intros Hlen Hadd (l & Htr & Hnd & Hcan). cbn [py_str] in Hadd.
  pose proof (add_to_set_tracks _ _ _ _ Htr Hadd) as Htr'.
  case_bool_decide as Hin.
  - by exists l.
  - exists (l ++ [oid_str o]). rewrite fmap_app. split; [done|]. split.
    + apply NoDup_app. split; [done|]. split; [|apply NoDup_singleton].
      intros s Hs ->%list_elem_of_singleton. apply Hin.
      by apply list_elem_of_fmap_2.
    + apply Forall_app. split; [done|].
      by apply Forall_singleton, is_rendered_str.
Qed.

Lemma playlists_ok_route_relation :
  route_relation (fun w w' => playlists_ok w -> playlists_ok w').
Proof.
  split.
  - done.
  - auto.
  - intros op w Hok d Hd. by apply Hok.
  - intros w d data key d' Hdb _ (stored & -> & _)%insert_one_inv Hok d1 [= <-].
    rewrite collection_store_ne by done. by apply Hok.
  - intros w d pl key d' Hdb (stored & -> & _ & _ & Hst)%insert_one_inv Hok d1 [= <-].
    rewrite collection_store. apply Forall_app. split; [by apply Hok|].
    apply Forall_singleton. exists []. rewrite (Hst (playlist_doc_no_id pl)).
    split; [by rewrite lookup_insert_ne, lookup_insert_eq|].
    split; [apply NoDup_nil_2 | apply Forall_nil_2].
  - intros w d p t l' Hdb Hlen Hu Hok d1 [= <-].
    rewrite (playlist_update_collection d p t l' Hu).
    specialize (Hok d Hdb). unfold playlist_update in Hu.
    apply (update_first_Forall2 (fun x x' => tracks_ok x -> tracks_ok x')) in Hu.
    + revert Hok. induction Hu as [|x x' l l'' Hx _ IH]; [done|].
      intros [Hx0 Hl]%Forall_cons. apply Forall_cons. split; [by apply Hx | by apply IH].
    + done.
    + intros x x' Hx. by apply (tracks_ok_add_to_set t).
Qed.

(** X15: if every stored playlist has, under [tracks], a sequence of
    strings without repetition, each the rendering of an identifier
    (lower-case hexadecimal digits, two for each of at most twelve
    bytes), as in an empty database, this is still so after any
    sequence of requests to the data routes.  The strings need not have
    24 characters: a [track_id] with whitespace in it leaves a shorter
    one. *)
Theorem requests_keep_playlists_ok (rs : list request) (w : World) :
  playlists_ok w -> playlists_ok (serve_all rs w).
Proof.
  apply (related_serve_all _ playlists_ok_route_relation rs w).
Qed.

Lemma requests_keep_playlists_ok_witness :
  playlists_ok
    (serve_all
       [PostSeed;
        PostPlaylists {| name := "mix"; description := None; pl_cover_url := None |};
        PostPlaylistTracks "000000000000000000000003"
          {| track_id := "0000000000000000000000AB" |};
        PostPlaylistTracks "000000000000000000000003"
          {| track_id := "00000000000000000000  ab" |};
        GetPlaylists None]
       empty_world).
Proof.
  apply requests_keep_playlists_ok.
  intros d [= <-]. vm_compute. constructor.
Defined.

(** ** Identifiers stay unique *)

Lemma Forall_has_id_ids (l : list doc) :
  Forall (fun x => is_Some (x !! "_id")) l <-> Forall is_Some (ids_of l).
Proof. unfold ids_of. by rewrite Forall_fmap. Qed.

Lemma ids_unique_route_relation :
  route_relation (fun w w' => ids_unique w -> ids_unique w').
Proof.
  assert (forall w d cname data key d',
             db w = Some d -> insert_one cname data d = inr (key, d') ->
             ids_unique w -> ids_unique (set_db d' w)) as Hinsert.
  { intros w d cname data key d' Hdb (stored & -> & Hkey & Hnew & _)%insert_one_inv
      Hok d1 cname' [= <-].
    destruct (Hok d cname' Hdb) as [Hnd Hall].
    rewrite ids_of_store.
    destruct (decide (cname = cname')) as [<-|Hne].
    - rewrite collection_store. split.
      + apply NoDup_app. split; [done|]. split; [|apply NoDup_singleton].
        intros k Hk ->%list_elem_of_singleton. by rewrite Hkey in Hk.
      + apply Forall_app. split; [done|]. apply Forall_singleton. by rewrite Hkey.
    - by rewrite collection_store_ne. }
  split.
  - done.
  - auto.
  - intros op w Hok d cname Hd. by apply Hok.
  - intros w d data key d' Hdb _ Hins. by apply (Hinsert w d "track" data key d').
  - intros w d pl key d' Hdb Hins.
    by apply (Hinsert w d "playlist" _ key d' Hdb Hins).
  - intros w d p t l' Hdb _ Hu Hok d1 cname [= <-].
    destruct (Hok d cname Hdb) as [Hnd Hall].
    rewrite (ids_of_with_playlists d p t l' cname Hu). split; [done|].
    apply Forall_has_id_ids. rewrite (ids_of_with_playlists d p t l' cname Hu).
    by apply Forall_has_id_ids.
Qed.

(** X16: identifiers are never reused.  If in every collection each
    document has an [_id] and no two documents share one, this is still
    so after any sequence of requests to the data routes. *)
Theorem requests_keep_ids_unique (rs : list request) (w : World) :
  ids_unique w -> ids_unique (serve_all rs w).
Proof.
  apply (related_serve_all _ ids_unique_route_relation rs w).
Qed.

Lemma requests_keep_ids_unique_witness :
  ids_unique
    (serve_all
       [PostSeed;
        PostTracks {| title := "X"; artist := "Y"; album := None;
                      cover_url := None; audio_url := "http://a/b.mp3";
                      duration_ms := None |};
        PostPlaylists {| name := "mix"; description := None; pl_cover_url := None |};
        PostSeed]
       empty_world).
Proof.
  apply requests_keep_ids_unique.
  intros d cname [= <-]. unfold collection, empty_db. cbn.
  rewrite lookup_empty. cbn. split; constructor.
Defined.

(** ** The diagnostic route *)

(** Unfold one run of the diagnostic route to the dictionary it builds. *)
Ltac diag_run :=
  cbv [test_database bind ret raise try_except call set_field get_state
       name_attr list_collection_names].

(** X17: the diagnostic route never fails.  Whatever the [db] handle
    does (absent, raising on attribute access, raising on the listing)
    and whatever the environment holds, it returns its [response]
    dictionary, which has exactly the six keys it started with and
    reports the backend as running. *)
Theorem test_database_never_fails (handle : option DbHandle)
    (getenv : string -> option string) (s0 : doc) :
  exists r,
    test_database handle getenv s0 = (inr r, r) /\
    dom r = diagnostic_keys /\
    r !! "backend" = Some (VStr "✅ Running").
Proof.
  destruct handle as [[[msg|[n|]] [msg'|l]]|]; diag_run;
    (eexists; split; [reflexivity|]; split;
     [rewrite !dom_insert_L, dom_empty_L; unfold diagnostic_keys; set_solver
     | lookup_chain]).
Qed.

(** X18: the two configuration flags of the diagnostic answer depend on
    the environment alone.  [database_url] and [database_name] say
    "Set" exactly when the variable is set to a non-empty string,
    whether or not there is a [db] handle; the handle's own name, put
    under [database_name] on the way, never reaches the answer. *)
Theorem test_database_env_flags (handle : option DbHandle)
    (getenv : string -> option string) (s0 : doc) :
  exists r,
    test_database handle getenv s0 = (inr r, r) /\
    r !! "database_url" =
      Some (VStr (match getenv "DATABASE_URL" with
                  | Some s => if String.eqb s EmptyString
                              then "❌ Not Set" else "✅ Set"
                  | None => "❌ Not Set"
                  end)) /\
    r !! "database_name" =
      Some (VStr (match getenv "DATABASE_NAME" with
                  | Some s => if String.eqb s EmptyString
                              then "❌ Not Set" else "✅ Set"
                  | None => "❌ Not Set"
                  end)).
Proof.
  destruct handle as [[[msg|[n|]] [msg'|l]]|]; diag_run;
    (eexists; split; [reflexivity|]; unfold env_set;
     split; lookup_chain;
     [destruct (getenv "DATABASE_URL") as [s|]
     | destruct (getenv "DATABASE_NAME") as [s|]];
     try done; by destruct (String.eqb s EmptyString)).
Qed.

(** X19: the [collections] field of the diagnostic answer holds at most
    ten names, the first ones of the listing when the listing
    succeeded, and none otherwise; the answer says "Connected &
    Working" exactly when there is a handle, its name could be read and
    the listing succeeded. *)
Theorem test_database_collections (handle : option DbHandle)
    (getenv : string -> option string) (s0 : doc) :
  let names := match handle with
               | Some {| name_attr := inr _; list_collection_names := inr l |} =>
                   take 10 l
               | _ => []
               end in
  exists r,
    test_database handle getenv s0 = (inr r, r) /\
    r !! "collections" = Some (VList (VStr <$> names)) /\
    (length names <= 10)%nat /\
    (r !! "database" = Some (VStr "✅ Connected & Working") <->
     exists h a l, handle = Some h /\ name_attr h = inr a /\
                   list_collection_names h = inr l).
Proof.
  destruct handle as [[[msg|a] [msg'|l]]|]; cbn zeta; diag_run.
  all: eexists; split; [reflexivity|].
  all: split; [lookup_chain|].
  all: split; [first [rewrite length_take; lia | cbn; lia]|].
  all: lookup_chain; split;
    [ intros H;
      first [ (cbn in H; discriminate H) | by (eexists _, _, _; repeat split) ]
    | intros (h & a0 & l0 & Hh & Ha & Hl);
      first [ discriminate Hh
            | (injection Hh as <-; cbn in Ha, Hl;
               first [discriminate Ha | discriminate Hl | reflexivity]) ] ].
Qed.

(** X20: the diagnostic answer never keeps a provisional text.  The
    [database] field is always overwritten: it is never the initial
    "Not Available" nor the intermediate "Available"; and
    [connection_status] says "Connected" exactly when there is a handle
    whose name could be read. *)
Theorem test_database_status (handle : option DbHandle)
    (getenv : string -> option string) (s0 : doc) :
  exists r,
    test_database handle getenv s0 = (inr r, r) /\
    r !! "database" <> Some (VStr "❌ Not Available") /\
    r !! "database" <> Some (VStr "✅ Available") /\
    (handle = None ->
     r !! "database" = Some (VStr "⚠️  Available but not initialized")) /\
    (r !! "connection_status" = Some (VStr "Connected") <->
     exists h a, handle = Some h /\ name_attr h = inr a).
Proof.
  destruct handle as [[[msg|a] [msg'|l]]|]; diag_run.
  all: eexists; split; [reflexivity|].
  all: split; [lookup_chain; cbn; discriminate|].
  all: split; [lookup_chain; cbn; discriminate|].
  all: split; [intros Hnone; first [discriminate Hnone | lookup_chain]|].
  all: lookup_chain; split;
    [ intros H;
      first [ (cbn in H; discriminate H) | by (eexists _, _; repeat split) ]
    | intros (h & a0 & Hh & Ha);
      first [ discriminate Hh
            | (injection Hh as <-; cbn in Ha;
               first [discriminate Ha | reflexivity]) ] ].
Qed.

(** ** Posting the same track twice *)

(** X21: [POST /tracks] does not look for an equal track already
    stored.  Sent twice, the same payload, with a duration that fits
    in eight bytes when given, is stored twice, at the end of the track
    collection, and the two answers carry the same fields under two
    different identifiers. *)
Theorem create_track_twice (w : World) (d : Database) (payload : CreateTrack) :
  db w = Some d -> db_wf d = true -> (next_oid d + 1 < oid_modulus)%N ->
  (forall z, duration_ms payload = Some z -> fits_int64 z = true) ->
  exists id1 id2 d2,
    answer (create_track payload) w =
      inr (Some (<["id" := VStr id1]> (Track_model_dump payload))) /\
    answer (create_track payload) (after (create_track payload) w) =
      inr (Some (<["id" := VStr id2]> (Track_model_dump payload))) /\
    id1 <> id2 /\
    db (after (create_track payload) (after (create_track payload) w)) = Some d2 /\
    exists x1 x2,
      collection d2 "track" = collection d "track" ++ [x1; x2] /\
      delete "_id" x1 = Track_model_dump payload /\
      delete "_id" x2 = Track_model_dump payload.
Proof.
  intros Hdb Hwf Hlt Hfit. unfold answer, after.
  rewrite (create_track_run w d payload Hdb Hwf Hfit). cbn [fst snd].
  set (x1 := <["_id" := VOid (gen_oid d)]> (Track_model_dump payload)).
  set (d1 := store "track" x1 d). set (w1 := log_op _ _).
  assert (db_wf d1 = true) as Hwf1 by by apply db_wf_store.
  rewrite (create_track_run w1 d1 payload eq_refl Hwf1 Hfit). cbn [fst snd].
  set (x2 := <["_id" := VOid (gen_oid d1)]> (Track_model_dump payload)).
  exists (oid_str (gen_oid d)), (oid_str (gen_oid d1)), (store "track" x2 d1).
  split; [done|]. split; [done|]. split.
  { intros Heq%oid_str_inj. symmetry in Heq. revert Heq.
    apply (oid_of_N_shift_ne (next_oid d) 1); [lia|]. pose proof oid_modulus_gt. lia. }
  split; [done|]. exists x1, x2.
  split; [rewrite collection_store; unfold d1;
          by rewrite collection_store, <- app_assoc|].
  split; apply delete_insert_id, Track_model_dump_no_id.
Qed.

Lemma create_track_twice_witness :
  let payload := {| title := "X"; artist := "Y"; album := None;
                    cover_url := None; audio_url := "http://a/b.mp3";
                    duration_ms := None |} in
  exists id1 id2,
    answer (create_track payload) empty_world =
      inr (Some (<["id" := VStr id1]> (Track_model_dump payload))) /\
    answer (create_track payload) (after (create_track payload) empty_world) =
      inr (Some (<["id" := VStr id2]> (Track_model_dump payload))) /\
    id1 <> id2.
Proof.
  cbn zeta.
  destruct (create_track_twice empty_world empty_db
              {| title := "X"; artist := "Y"; album := None;
                 cover_url := None; audio_url := "http://a/b.mp3";
                 duration_ms := None |})
    as (id1 & id2 & d2 & H1 & H2 & Hne & _).
  - reflexivity.
  - vm_compute. reflexivity.
  - vm_compute. reflexivity.
  - intros z Hz. discriminate Hz.
  - exists id1, id2. split; [exact H1|]. split; [exact H2 | exact Hne].
Defined.

(** ** A duration BSON cannot hold *)


